(** * ctxlock: a stackable, Context-aware lock

    A shallow embedding of [ctxlock.go] (package [toolman.org/sync/ctxlock])
    and the properties of its three methods [Lock], [Unlock] and [Clear].

    - Go's [context.Context] is an immutable chain of key/value pairs that
      also carries a cancellation signal.  A context is modelled by the
      chain of its values (innermost first) and the logical instant at
      which its [Done] channel is closed, if ever.
    - The receiver [c *ContextLock] is threaded through a small state monad
      whose failures are the three ways a Go call can fail to return:
      a nil dereference, a loop that never ends, a blocking operation.
    - A method that blocks in [c.cond.Wait()] is cut at that call: the code
      up to the wait and the code after the wake-up are two atomic
      segments, each run with [c.mu] held.
    - Goroutines calling into one lock are a labelled transition system
      whose steps are those segments.
    - Of the tests, [permutations] ([misc_test.go]) and the methods
      [shiftNext], [shiftEven] and [shiftOdd] of [testThing] are embedded
      too, the latter as run by one goroutine. *)

From stdpp Require Import gmap strings list.
From Stdlib Require Import Factorial Strings.Byte.

Local Open Scope Z_scope.

Abbreviation byte := Byte.byte.

(** ** Machine integers *)

(** [lockID] is a [uint64]; Go's [int] is 64 bits wide and wraps. *)
Definition uint64 (z : Z) : Z := z mod 2 ^ 64.
Definition int_wrap (z : Z) : Z := (z + 2 ^ 63) mod 2 ^ 64 - 2 ^ 63.
Definition max_int : Z := 2 ^ 63 - 1.

(** ** Contexts *)

(** The two errors [ctx.Err()] can report. *)
Inductive error : Type := Canceled | DeadlineExceeded.

(** Context keys are compared by dynamic type and value: a key of the
    unexported type [lockID] never equals a key of the caller's. *)
Inductive Key : Type :=
| LockKey (i : Z)
| UserKey (name : string).

(** Context values are [interface{}]; the lock stores an [int]. *)
Inductive Val : Type :=
| IntVal (n : Z)
| OtherVal (s : string).

Global Instance error_eq_dec : EqDecision error.
Proof. solve_decision. Defined.
Global Instance Key_eq_dec : EqDecision Key.
Proof. solve_decision. Defined.
Global Instance Val_eq_dec : EqDecision Val.
Proof. solve_decision. Defined.

(** [values]: the chain built by [context.WithValue], innermost first.
    [cancelAt]: the instant the context is cancelled and the error it
    reports from then on; [None] for a context that is never cancelled
    (its [Done] channel is nil or never closed). *)
Record Context : Type := mkContext {
  values : list (Key * Val);
  cancelAt : option (nat * error)
}.

Fixpoint chain_lookup (k : Key) (l : list (Key * Val)) : option Val :=
  match l with
  | [] => None
  | (k', v) :: l' => if decide (k = k') then Some v else chain_lookup k l'
  end.

(** [ctx.Value(key)] *)
Definition ctx_Value (ctx : Context) (k : Key) : option Val :=
  chain_lookup k (values ctx).

(** [context.WithValue(ctx, key, val)] *)
Definition WithValue (ctx : Context) (k : Key) (v : Val) : Context :=
  {| values := (k, v) :: values ctx; cancelAt := cancelAt ctx |}.

(** [ctx.Err()] observed at instant [now]; [<-ctx.Done()] is ready exactly
    when it is not nil. *)
Definition ctx_Err (ctx : Context) (now : nat) : option error :=
  match cancelAt ctx with
  | Some (t, e) => if (t <=? now)%nat then Some e else None
  | None => None
  end.

Definition Background : Context := {| values := []; cancelAt := None |}.

(** ** The lock *)

(** Goroutine identifiers, used for the notify list of the condition. *)
Definition tid : Type := nat.

(** [cond]: [None] is the nil pointer; otherwise the notify list of the
    [sync.Cond], longest waiting first.  [mu]: whether the mutex is locked. *)
Record ContextLock : Type := mkContextLock {
  cond : option (list tid);
  held : bool;
  mu : bool;
  id : Z
}.

(** The zero value of the struct. *)
Definition zero : ContextLock :=
  {| cond := None; held := false; mu := false; id := 0 |}.

Definition with_cond (w : option (list tid)) (c : ContextLock) : ContextLock :=
  {| cond := w; held := held c; mu := mu c; id := id c |}.
Definition with_held (b : bool) (c : ContextLock) : ContextLock :=
  {| cond := cond c; held := b; mu := mu c; id := id c |}.
Definition with_mu (b : bool) (c : ContextLock) : ContextLock :=
  {| cond := cond c; held := held c; mu := b; id := id c |}.
Definition with_id (i : Z) (c : ContextLock) : ContextLock :=
  {| cond := cond c; held := held c; mu := mu c; id := i |}.

(** ** The monad of method bodies *)

Inductive Res (A : Type) : Type :=
| Ok (a : A) (c : ContextLock)
| Panic      (* nil pointer dereference, unlock of an unlocked mutex *)
| Diverge    (* the loop of [_setup] never drew a non-zero identifier *)
| Block.     (* the goroutine cannot proceed now *)
Arguments Ok {A} a c.
Arguments Panic {A}.
Arguments Diverge {A}.
Arguments Block {A}.

Definition M (A : Type) : Type := ContextLock -> Res A.

Definition ret {A} (a : A) : M A := fun c => Ok a c.

Definition bind {A B} (m : M A) (k : A -> M B) : M B :=
  fun c =>
    match m c with
    | Ok a c' => k a c'
    | Panic => Panic
    | Diverge => Diverge
    | Block => Block
    end.

Definition gets {A} (f : ContextLock -> A) : M A := fun c => Ok (f c) c.
Definition modify (f : ContextLock -> ContextLock) : M unit := fun c => Ok tt (f c).

Declare Scope lock_scope.
Delimit Scope lock_scope with lock.
Notation "'let*' x ':=' m 'in' k" := (bind m (fun x => k))
  (at level 10, x name, m at level 100, k at level 200) : lock_scope.
Notation "m '>>' k" := (bind m (fun _ => k))
  (at level 100, k at level 200, right associativity) : lock_scope.
Local Open Scope lock_scope.

(** *** [sync.Mutex] and [sync.Cond] *)

(** [c.mu.Lock()] *)
Definition mu_Lock : M unit :=
  fun c => if mu c then Block else Ok tt (with_mu true c).

(** [c.mu.Unlock()] *)
Definition mu_Unlock : M unit :=
  fun c => if mu c then Ok tt (with_mu false c) else Panic.

(** [sync.NewCond(&c.mu)] *)
Definition NewCond : option (list tid) := Some [].

(** [c.cond.Signal()]: wakes the goroutine that has waited longest, if any. *)
Definition cond_Signal : M unit :=
  fun c =>
    match cond c with
    | None => Panic
    | Some ws => Ok tt (with_cond (Some (tail ws)) c)
    end.

(** [c.cond.Broadcast()]: wakes every waiting goroutine. *)
Definition cond_Broadcast : M unit :=
  fun c =>
    match cond c with
    | None => Panic
    | Some ws => Ok tt (with_cond (Some []) c)
    end.

(** First half of [c.cond.Wait()]: join the notify list, unlock [c.mu]. *)
Definition cond_Wait_park (me : tid) : M unit :=
  (fun c =>
    match cond c with
    | None => Panic
    | Some ws => Ok tt (with_cond (Some (ws ++ [me])) c)
    end) >>
  mu_Unlock.

(** Whether [me] is still on the notify list. *)
Definition parked (me : tid) (c : ContextLock) : bool :=
  match cond c with
  | None => false
  | Some ws => bool_decide (me ∈ ws)
  end.

(** Second half of [c.cond.Wait()]: once notified, lock [c.mu] again. *)
Definition cond_Wait_resume (me : tid) : M unit :=
  (fun c => if parked me c then Block else Ok tt c) >>
  mu_Lock.

(** ** The methods of [ContextLock] *)

Fixpoint _setup_loop (draws : list Z) : M unit :=
  fun c =>
    if id c =? 0 then
      match draws with
      | [] => Diverge
      | d :: draws' => _setup_loop draws' (with_id (uint64 d) c)
      end
    else Ok tt c.

(** [_setup]; [draws] are the values the successive calls of
    [rand.Uint64()] return. *)
Definition _setup (draws : list Z) : M unit :=
  (let* w := gets cond in
   match w with
   | None => modify (with_cond NewCond)
   | Some _ => ret tt
   end) >>
  _setup_loop draws.

(** The depth a context records under the key [i]. *)
Definition depth_of (i : Z) (ctx : Context) : Z :=
  match ctx_Value ctx (LockKey i) with
  | Some (IntVal d) => d
  | _ => 0
  end.

(** [_depth] *)
Definition _depth (ctx : Context) : M Z :=
  let* i := gets id in ret (depth_of i ctx).

(** [_withDepth]; a nil context is [None]. *)
Definition _withDepth (ctx : Context) (now : nat) (value : Z)
  : M (option Context * option error) :=
  match ctx_Err ctx now with
  | Some e => cond_Broadcast >> ret (None, Some e)
  | None =>
      let* i := gets id in
      ret (Some (WithValue ctx (LockKey i) (IntVal value)), None)
  end.

(** Where a segment of [Lock] ends: at a [return], or inside [_wait], the
    watcher goroutine started and [c.cond.Wait()] about to be called. *)
Inductive LockPoint : Type :=
| Returned (r : option Context * option error)
| AtWait (depth : Z).

(** The loop [for c.held { ... }] of [Lock] from its test on, and what
    follows it.  (The method [_lock] repeats this loop; nothing calls it.) *)
Definition Lock_loop (ctx : Context) (now : nat) (depth : Z) : M LockPoint :=
  let* h := gets held in
  if h then ret (AtWait depth)
  else
    modify (with_held true) >>
    let* r := _withDepth ctx now (int_wrap (depth + 1)) in
    mu_Unlock >> ret (Returned r).

(** [Lock], up to its first wait or its return. *)
Definition Lock (ctx : Context) (now : nat) (draws : list Z) : M LockPoint :=
  mu_Lock >>
  let* i := gets id in
  (if i =? 0 then _setup draws else ret tt) >>
  let* depth := _depth ctx in
  if depth =? 0 then Lock_loop ctx now depth
  else
    let* r := _withDepth ctx now (int_wrap (depth + 1)) in
    mu_Unlock >> ret (Returned r).

(** [_wait] from the wake-up of its [c.cond.Wait()] on: it returns its
    variable [err], which the watcher goroutine writes when it sees
    [ctx.Done()] closed. *)
Definition _wait_leave (me : tid) (err : option error) : M (option error) :=
  cond_Wait_resume me >> ret err.

(** [Lock] from the wake-up inside [_wait] on; [werr] is the [err] of that
    [_wait]. *)
Definition Lock_resume (me : tid) (ctx : Context) (now : nat) (depth : Z)
    (werr : option error) : M LockPoint :=
  let* err := _wait_leave me werr in
  match err with
  | Some e => mu_Unlock >> ret (Returned (Some ctx, Some e))
  | None => Lock_loop ctx now depth
  end.

(** The [switch depth] of [Unlock], with its fallthroughs; [None] is the
    early [return ctx, nil] of case 0. *)
Definition Unlock_switch (depth : Z) : M (option Z) :=
  let dflt : M (option Z) := ret (Some (if 0 <? depth then depth - 1 else depth)) in
  let case1 : M (option Z) := modify (with_held false) >> cond_Signal >> dflt in
  if depth =? 0 then
    let* h := gets held in
    if negb h then ret None else case1
  else if depth =? 1 then case1
  else dflt.

(** [Unlock] *)
Definition Unlock (ctx : Context) (now : nat) : M (option Context * option error) :=
  mu_Lock >>
  let* i := gets id in
  if i =? 0 then mu_Unlock >> ret (Some ctx, None)
  else
    let* depth := _depth ctx in
    let* d := Unlock_switch depth in
    match d with
    | None => mu_Unlock >> ret (Some ctx, None)
    | Some depth' =>
        let* r := _withDepth ctx now depth' in
        mu_Unlock >> ret r
    end.

(** [Clear] *)
Definition Clear (ctx : Context) (now : nat) : M (option Context * option error) :=
  mu_Lock >>
  let* h := gets held in
  if h then
    let* r := _withDepth ctx now 0 in
    mu_Unlock >> ret r
  else mu_Unlock >> ret (Some ctx, None).

(** ** Goroutines sharing one lock *)

(** Where a goroutine stands with respect to the lock: outside of its
    methods, or inside the [_wait] of a [Lock(ctx)] whose local [depth] is
    [depth] and whose [err] is [werr]: before [c.cond.Wait()] (with [c.mu]
    held), or inside it. *)
Inductive Pc : Type :=
| Idle
| Spawned (ctx : Context) (depth : Z) (werr : option error)
| Waiting (ctx : Context) (depth : Z) (werr : option error).

(** [orphans]: the watcher goroutines of calls of [_wait] that have
    returned before their watcher chose a branch of its [select]. *)
Record Sys : Type := mkSys {
  lock : ContextLock;
  clock : nat;
  pcs : gmap tid Pc;
  orphans : list Context
}.

Definition pc_of (s : Sys) (t : tid) : Pc := default Idle (pcs s !! t).

Definition init : Sys :=
  {| lock := zero; clock := 0%nat; pcs := ∅; orphans := [] |}.

Inductive Label : Type :=
| LLock (t : tid) (ctx : Context) (draws : list Z) (p : LockPoint)
| LPark (t : tid)
| LResume (t : tid) (p : LockPoint)
| LUnlock (t : tid) (ctx : Context) (r : option Context * option error)
| LClear (t : tid) (ctx : Context) (r : option Context * option error)
| LWatch (t : tid)
| LOrphan (n : nat)
| LOrphanExit (n : nat)
| LTick.

(** The program counter of [t] after a segment of [Lock(ctx)]. *)
Definition after_Lock (t : tid) (ctx : Context) (p : LockPoint)
    (m : gmap tid Pc) : gmap tid Pc :=
  match p with
  | Returned _ => <[t := Idle]> m
  | AtWait d => <[t := Spawned ctx d None]> m
  end.

(** A watcher that has not written [err] when [_wait] returns lives on. *)
Definition after_wait (ctx : Context) (werr : option error)
    (ws : list Context) : list Context :=
  match werr with
  | None => ctx :: ws
  | Some _ => ws
  end.

Inductive step : Sys -> Label -> Sys -> Prop :=
| step_Lock s t ctx draws p c' :
    pc_of s t = Idle ->
    Lock ctx (clock s) draws (lock s) = Ok p c' ->
    step s (LLock t ctx draws p)
      {| lock := c'; clock := clock s;
         pcs := after_Lock t ctx p (pcs s); orphans := orphans s |}
| step_Park s t ctx d werr c' :
    pc_of s t = Spawned ctx d werr ->
    cond_Wait_park t (lock s) = Ok tt c' ->
    step s (LPark t)
      {| lock := c'; clock := clock s;
         pcs := <[t := Waiting ctx d werr]> (pcs s); orphans := orphans s |}
| step_Resume s t ctx d werr p c' :
    pc_of s t = Waiting ctx d werr ->
    Lock_resume t ctx (clock s) d werr (lock s) = Ok p c' ->
    step s (LResume t p)
      {| lock := c'; clock := clock s;
         pcs := after_Lock t ctx p (pcs s);
         orphans := after_wait ctx werr (orphans s) |}
| step_Unlock s t ctx r c' :
    pc_of s t = Idle ->
    Unlock ctx (clock s) (lock s) = Ok r c' ->
    step s (LUnlock t ctx r)
      {| lock := c'; clock := clock s; pcs := pcs s; orphans := orphans s |}
| step_Clear s t ctx r c' :
    pc_of s t = Idle ->
    Clear ctx (clock s) (lock s) = Ok r c' ->
    step s (LClear t ctx r)
      {| lock := c'; clock := clock s; pcs := pcs s; orphans := orphans s |}
| step_Watch_spawned s t ctx d e c' :
    pc_of s t = Spawned ctx d None ->
    ctx_Err ctx (clock s) = Some e ->
    cond_Broadcast (lock s) = Ok tt c' ->
    step s (LWatch t)
      {| lock := c'; clock := clock s;
         pcs := <[t := Spawned ctx d (Some e)]> (pcs s); orphans := orphans s |}
| step_Watch_waiting s t ctx d e c' :
    pc_of s t = Waiting ctx d None ->
    ctx_Err ctx (clock s) = Some e ->
    cond_Broadcast (lock s) = Ok tt c' ->
    step s (LWatch t)
      {| lock := c'; clock := clock s;
         pcs := <[t := Waiting ctx d (Some e)]> (pcs s); orphans := orphans s |}
| step_Orphan s n ctx e c' :
    orphans s !! n = Some ctx ->
    ctx_Err ctx (clock s) = Some e ->
    cond_Broadcast (lock s) = Ok tt c' ->
    step s (LOrphan n)
      {| lock := c'; clock := clock s; pcs := pcs s;
         orphans := delete n (orphans s) |}
| step_OrphanExit s n :
    step s (LOrphanExit n)
      {| lock := lock s; clock := clock s; pcs := pcs s;
         orphans := delete n (orphans s) |}
| step_Tick s :
    step s LTick
      {| lock := lock s; clock := S (clock s); pcs := pcs s;
         orphans := orphans s |}.

Definition sys_step (s s' : Sys) : Prop := exists l, step s l s'.

Definition reachable (s : Sys) : Prop := rtc sys_step init s.

(** ** Call paths that follow the documented pattern

    [if ctx, err = f.Lock(ctx); err != nil { return err }; defer f.Unlock(ctx)]:
    a call path keeps, innermost first, the contexts its successful calls
    of [Lock] returned and have not yet been passed to [Unlock]. *)

Abbreviation Frames := (gmap tid (list Context)).

Definition frames_of (fs : Frames) (t : tid) : list Context :=
  default [] (fs !! t).

(** A successful [Lock] opens a frame. *)
Definition push (t : tid) (p : LockPoint) (fs : Frames) : Frames :=
  match p with
  | Returned (Some ctx', None) => <[t := ctx' :: frames_of fs t]> fs
  | _ => fs
  end.

(** [follows c' fs l fs']: the step labelled [l], which leaves the lock in
    state [c'], is one of a call path that follows the pattern.
    - A path that holds no frame calls [Lock] with a context at depth 0.
    - A path that holds frames calls [Lock] and [Unlock] with the context
      of its innermost frame; its nesting stays below [max_int].
    - [Clear] may be called with any context. *)
Inductive follows (c' : ContextLock) (fs : Frames) : Label -> Frames -> Prop :=
| follows_Lock_outer t ctx draws p :
    frames_of fs t = [] ->
    depth_of (id c') ctx = 0 ->
    follows c' fs (LLock t ctx draws p) (push t p fs)
| follows_Lock_nested t ctx rest draws p :
    frames_of fs t = ctx :: rest ->
    Z.of_nat (length (ctx :: rest)) < max_int ->
    follows c' fs (LLock t ctx draws p) (push t p fs)
| follows_Resume t p :
    follows c' fs (LResume t p) (push t p fs)
| follows_Unlock t ctx rest r :
    frames_of fs t = ctx :: rest ->
    follows c' fs (LUnlock t ctx r) (<[t := rest]> fs)
| follows_Clear t ctx r :
    follows c' fs (LClear t ctx r) fs
| follows_Park t :
    follows c' fs (LPark t) fs
| follows_Watch t :
    follows c' fs (LWatch t) fs
| follows_Orphan n :
    follows c' fs (LOrphan n) fs
| follows_OrphanExit n :
    follows c' fs (LOrphanExit n) fs
| follows_Tick :
    follows c' fs LTick fs.

Inductive cstep : Sys * Frames -> Sys * Frames -> Prop :=
| cstep_intro s l s' fs fs' :
    step s l s' ->
    follows (lock s') fs l fs' ->
    cstep (s, fs) (s', fs').

Definition creachable (x : Sys * Frames) : Prop := rtc cstep (init, ∅) x.

(** A call path is inside its critical section while it holds a frame. *)
Definition in_section (fs : Frames) (t : tid) : Prop := frames_of fs t <> [].

(** ** Invariants *)

(** A lock whose identifier is assigned has its condition variable. *)
Definition wf (c : ContextLock) : Prop := id c <> 0 -> cond c <> None.

(** A held lock has been set up. *)
Definition lock_ok (c : ContextLock) : Prop :=
  (held c = true -> id c <> 0) /\ wf c.

(** What holds of every state the goroutines can reach:
    - the lock is [lock_ok];
    - a goroutine inside [Lock] has passed [_setup];
    - a goroutine between the start of its watcher and [c.cond.Wait()] holds
      [c.mu], and there is at most one such goroutine. *)
Definition sys_inv (s : Sys) : Prop :=
  lock_ok (lock s) /\
  (forall t, pc_of s t <> Idle -> id (lock s) <> 0) /\
  (forall t ctx d w, pc_of s t = Spawned ctx d w -> mu (lock s) = true) /\
  (forall t1 t2 ctx1 d1 w1 ctx2 d2 w2,
     pc_of s t1 = Spawned ctx1 d1 w1 -> pc_of s t2 = Spawned ctx2 d2 w2 ->
     t1 = t2).

(** The frames of a call path, innermost first: the k-th frame from the
    bottom carries depth k, and the nesting fits in an [int]. *)
Fixpoint frames_ok (i : Z) (fs : list Context) : Prop :=
  match fs with
  | [] => True
  | ctx :: rest =>
      depth_of i ctx = Z.of_nat (S (length rest)) /\
      Z.of_nat (S (length rest)) <= max_int /\
      frames_ok i rest
  end.

Definition waits_at_zero (pc : Pc) : Prop :=
  match pc with
  | Idle => True
  | Spawned _ d _ | Waiting _ d _ => d = 0
  end.

(** What holds of every state reached by call paths that follow the
    pattern:
    - a path inside its section keeps the lock held, is not inside [Lock],
      and its frames are [frames_ok];
    - at most one path is inside its section;
    - a goroutine waiting in [Lock] came with depth 0. *)
Definition cinv (x : Sys * Frames) : Prop :=
  let (s, fs) := x in
  sys_inv s /\
  (forall t, in_section fs t ->
     held (lock s) = true /\ pc_of s t = Idle /\
     frames_ok (id (lock s)) (frames_of fs t)) /\
  (forall t1 t2, in_section fs t1 -> in_section fs t2 -> t1 = t2) /\
  (forall t, waits_at_zero (pc_of s t)).
Arguments cinv : simpl never.

(** ** Sample inputs *)

(** A context whose cancellation has fired from instant 0 on. *)
Definition cancelled : Context :=
  {| values := []; cancelAt := Some (0%nat, Canceled) |}.

(** A lock that is set up and held, with two goroutines waiting. *)
Definition busy : ContextLock :=
  {| cond := Some [1%nat; 2%nat]; held := true; mu := false; id := 7 |}.

(** A context at depth [d] for the lock of identifier 7. *)
Definition at_depth (d : Z) : Context := WithValue Background (LockKey 7) (IntVal d).

(** The goroutine 0 has called [Lock(Background)] on the zero value and
    drawn 7: it holds the lock with one frame. *)
Definition ctx_one : Context := WithValue Background (LockKey 7) (IntVal 1).

Definition sys_one : Sys :=
  {| lock := {| cond := Some []; held := true; mu := false; id := 7 |};
     clock := 0%nat;
     pcs := after_Lock 0%nat Background (Returned (Some ctx_one, None)) ∅;
     orphans := [] |}.

Definition frames_one : Frames := push 0%nat (Returned (Some ctx_one, None)) ∅.

(** Goroutine 0 holds the lock; goroutine 1 has called [Lock] with a
    cancelled context and stands between the start of its watcher and
    [c.cond.Wait()]. *)
Definition sys_two : Sys :=
  {| lock := with_mu true (lock sys_one);
     clock := 0%nat;
     pcs := after_Lock 1%nat cancelled (AtWait 0) (pcs sys_one);
     orphans := [] |}.

(** ** More invariants of the goroutines *)

(** The mutex is locked only while a goroutine is between the start of its
    watcher and [c.cond.Wait()]. *)
Definition mu_inv (s : Sys) : Prop :=
  mu (lock s) = true -> exists t ctx d w, pc_of s t = Spawned ctx d w.

(** The notify list holds goroutines that are inside [c.cond.Wait()], each
    once. *)
Definition notify_inv (s : Sys) : Prop :=
  forall ws, cond (lock s) = Some ws ->
    NoDup ws /\ forall t, t ∈ ws -> exists ctx d w, pc_of s t = Waiting ctx d w.

(** ** The test helpers *)

(** A context cancelled at instant 2. *)
Definition until_2 : Context :=
  {| values := []; cancelAt := Some (2%nat, Canceled) |}.

(** *** [permutations] *)

(** [a[i], a[j] = a[j], a[i]]: both elements are read, then [a[i]] and
    [a[j]] are written; [None] is the panic of an index out of range. *)
Definition swap (i j : nat) (a : list (list byte)) : option (list (list byte)) :=
  match a !! i, a !! j with
  | Some x, Some y => Some (<[j := x]> (<[i := y]> a))
  | _, _ => None
  end.

(** The slice [a], which is [lists] itself, and [out]. *)
Definition PermState : Type := list (list byte) * list (list byte).

(** [for j := j; j < len(a); j++ { body }] *)
Fixpoint perm_for (fuel : nat) (body : nat -> PermState -> option PermState)
    (j : nat) (st : PermState) : option PermState :=
  match fuel with
  | O => None
  | S fuel' =>
      if (j <? length st.1)%nat then
        st' ← body j st; perm_for fuel' body (S j) st'
      else Some st
  end.

(** The closure [perm] of [permutations]; the fuel bounds the depth of the
    calls and the turns of the loop. *)
Fixpoint perm (fuel : nat) (i : nat) (st : PermState) : option PermState :=
  match fuel with
  | O => None
  | S fuel' =>
      if (length st.1 <? i)%nat then Some (st.1, st.2 ++ [concat st.1])
      else
        st1 ← perm fuel' (S i) st;
        perm_for fuel
          (fun j st =>
             a1 ← swap i j st.1;
             st2 ← perm fuel' (S i) (a1, st.2);
             a2 ← swap i j st2.1;
             Some (a2, st2.2))
          (S i) st1
  end.

(** [permutations]: the final content of [lists] and the result. *)
Definition permutations (lists : list (list byte)) : option PermState :=
  perm (length lists + 2) 0 (lists, []).

(** What [perm] appends: the concatenations of the arrangements of [a]
    that keep its first [i] lists in place. *)
Definition arranged (i : nat) (a : list (list byte)) (x : list byte) : Prop :=
  exists p, p ≡ₚ a /\ take i p = take i a /\ x = concat p.

(** *** [testThing] and its methods, run by one goroutine *)

Module Fixture.

(** [testThing]: [lk] is the embedded [ContextLock]. *)
Record testThing : Type := mktestThing {
  values : list byte;
  lk : ContextLock
}.

(** How a run of a method of [testThing] by one goroutine ends: it
    returns, with the [testThing] it leaves and the number of calls of
    methods of the lock made so far; or it panics, never ends, or comes to
    a point where the goroutine has to wait for another one. *)
Inductive Outcome (A : Type) : Type :=
| Done (a : A) (tt : testThing) (n : nat)
| Panicked
| Diverged
| Blocked.
Arguments Done {A} a tt n.
Arguments Panicked {A}.
Arguments Diverged {A}.
Arguments Blocked {A}.

Section Run.

(** [instant n]: the instant at which the [n]-th call of a method of the
    lock looks at its context.  [draws]: the values [rand.Uint64()] has
    in store. *)
Variable instant : nat -> nat.
Variable draws : list Z.

(** [tt.Lock(ctx)] *)
Definition tt_Lock (ctx : Context) (tt : testThing) (n : nat)
  : Outcome (option Context * option error) :=
  match Lock ctx (instant n) draws (lk tt) with
  | Ok (Returned r) c' => Done r {| values := values tt; lk := c' |} (S n)
  | Ok (AtWait _) _ => Blocked
  | Panic => Panicked
  | Diverge => Diverged
  | Block => Blocked
  end.

(** [tt.Unlock(ctx)] *)
Definition tt_Unlock (ctx : Context) (tt : testThing) (n : nat)
  : Outcome (option Context * option error) :=
  match Unlock ctx (instant n) (lk tt) with
  | Ok r c' => Done r {| values := values tt; lk := c' |} (S n)
  | Panic => Panicked
  | Diverge => Diverged
  | Block => Blocked
  end.

(** The body [shiftEven] and [shiftOdd] share, [next] being [tt.shiftNext]. *)
Definition shift (next : Context -> list byte -> testThing -> nat -> Outcome (option error))
    (ctx : Context) (vs : list byte) (tt : testThing) (n : nat)
  : Outcome (option error) :=
  match tt_Lock ctx tt n with
  | Done (_, Some err) tt1 n1 => Done (Some err) tt1 n1
  | Done (None, None) _ _ =>
      (* a nil context: the deferred [Unlock] dereferences it *)
      Panicked
  | Done (Some ctx', None) tt1 n1 =>
      (* defer tt.Unlock(ctx) *)
      match vs with
      | [] => Panicked
      | v :: rest =>
          let tt2 := {| values := values tt1 ++ [v]; lk := lk tt1 |} in
          match next ctx' rest tt2 n1 with
          | Done err tt3 n3 =>
              match tt_Unlock ctx' tt3 n3 with
              | Done _ tt4 n4 => Done err tt4 n4
              | Panicked => Panicked
              | Diverged => Diverged
              | Blocked => Blocked
              end
          | Panicked => Panicked
          | Diverged => Diverged
          | Blocked => Blocked
          end
      end
  | Panicked => Panicked
  | Diverged => Diverged
  | Blocked => Blocked
  end.

(** [shiftNext], [shiftEven] and [shiftOdd] call one another; [fuel] bounds
    the depth of the calls, and a run that exhausts it ends as
    [Diverged]. *)
Fixpoint shiftNext (fuel : nat) (ctx : Context) (vs : list byte)
    (tt : testThing) (n : nat) : Outcome (option error) :=
  match fuel with
  | O => Diverged
  | S fuel' =>
      match vs with
      | [] => Done None tt n
      | v :: _ =>
          if (Byte.to_nat v mod 2 =? 1)%nat
          then shiftOdd fuel' ctx vs tt n
          else shiftEven fuel' ctx vs tt n
      end
  end
with shiftEven (fuel : nat) (ctx : Context) (vs : list byte)
    (tt : testThing) (n : nat) : Outcome (option error) :=
  match fuel with
  | O => Diverged
  | S fuel' => shift (shiftNext fuel') ctx vs tt n
  end
with shiftOdd (fuel : nat) (ctx : Context) (vs : list byte)
    (tt : testThing) (n : nat) : Outcome (option error) :=
  match fuel with
  | O => Diverged
  | S fuel' => shift (shiftNext fuel') ctx vs tt n
  end.

End Run.

End Fixture.

(** ** Running the methods *)

Ltac unfold_lock :=
  unfold Lock, Lock_resume, _wait_leave, Lock_loop, Unlock, Unlock_switch,
    Clear, _withDepth, _depth, _setup, cond_Wait_park, cond_Wait_resume, parked,
    cond_Signal, cond_Broadcast, NewCond, mu_Lock, mu_Unlock,
    bind, ret, gets, modify, with_cond, with_held, with_mu, with_id in *.

(** Case analysis on the innermost [match] of a hypothesis. *)
Ltac destruct_inner H :=
  match type of H with
  | context [match ?x with _ => _ end] =>
      lazymatch x with
      | context [match _ with _ => _ end] => fail
      | _ => destruct x eqn:?
      end
  end.

Ltac run_cases H :=
  unfold_lock; cbn in *;
  repeat (destruct_inner H; cbn in *; try discriminate H);
  simplify_eq; cbn.

Example Lock_zero_background :
  Lock Background 0 [42] zero =
  Ok (Returned (Some (WithValue Background (LockKey 42) (IntVal 1)), None))
     {| cond := Some []; held := true; mu := false; id := 42 |}.
Proof. reflexivity. Qed.

(** A path acquires (depth 0 to 1), acquires again with the context it
    got (1 to 2), releases (2 to 1) and releases again (1 to 0): the lock
    is held until the last release. *)
Example nested_calls :
  exists ctx1 c1 ctx2 c2 ctx3 c3 ctx4 c4,
    Lock Background 0 [0; 7] zero = Ok (Returned (Some ctx1, None)) c1 /\
    Lock ctx1 1 [] c1 = Ok (Returned (Some ctx2, None)) c2 /\
    Unlock ctx2 2 c2 = Ok (Some ctx3, None) c3 /\
    Unlock ctx1 3 c3 = Ok (Some ctx4, None) c4 /\
    map (depth_of 7) [ctx1; ctx2; ctx3; ctx4] = [1; 2; 1; 0] /\
    map held [c1; c2; c3; c4] = [true; true; true; false].
Proof. do 8 eexists. repeat split. Qed.

(** A second goroutine, at depth 0, finds the lock held and stops at the
    wait; woken after the release, it takes the lock. *)
Example contended_calls :
  Lock Background 0 [] busy = Ok (AtWait 0) (with_mu true busy) /\
  cond_Wait_park 3%nat (with_mu true busy) =
    Ok tt (with_cond (Some [1; 2; 3]%nat) busy) /\
  Lock_resume 3%nat Background 5 0 None (with_cond (Some [1; 2; 3]%nat) busy) = Block /\
  Lock_resume 3%nat Background 5 0 None
      {| cond := Some []; held := false; mu := false; id := 7 |} =
    Ok (Returned (Some ctx_one, None))
       {| cond := Some []; held := true; mu := false; id := 7 |}.
Proof. repeat split. Qed.

(** The largest depth wraps around. *)
Example depth_overflow :
  Lock (at_depth max_int) 0 [] busy =
  Ok (Returned (Some (WithValue (at_depth max_int) (LockKey 7)
                        (IntVal (- 2 ^ 63))), None)) busy.
Proof. reflexivity. Qed.

(** ** Facts about contexts and machine integers *)

Lemma depth_of_WithValue i ctx v :
  depth_of i (WithValue ctx (LockKey i) (IntVal v)) = v.
Proof.
  unfold depth_of, ctx_Value, WithValue; simpl.
  destruct (decide (LockKey i = LockKey i)); congruence.
Qed.

Lemma ctx_Value_WithValue_ne ctx k k' v :
  k' <> k -> ctx_Value (WithValue ctx k v) k' = ctx_Value ctx k'.
Proof.
  intros Hne. unfold ctx_Value, WithValue; simpl.
  destruct (decide (k' = k)); congruence.
Qed.

Lemma ctx_Err_WithValue ctx k v now :
  ctx_Err (WithValue ctx k v) now = ctx_Err ctx now.
Proof. reflexivity. Qed.

Lemma ctx_Err_mono ctx t t' e :
  (t <= t')%nat -> ctx_Err ctx t = Some e -> ctx_Err ctx t' = Some e.
Proof.
  unfold ctx_Err. destruct (cancelAt ctx) as [[t0 e0]|]; [|done].
  intros Hle. destruct (Nat.leb_spec t0 t); [|done].
  intros [= ->]. destruct (Nat.leb_spec t0 t'); [done|lia].
Qed.

Lemma int_wrap_small z : - 2 ^ 63 <= z <= max_int -> int_wrap z = z.
Proof.
  unfold int_wrap, max_int. intros H.
  rewrite Z.mod_small; lia.
Qed.

Lemma with_mu_unlock c : mu c = false -> with_mu false (with_mu true c) = c.
Proof. destruct c; simpl; intros ->; reflexivity. Qed.

(** ** The segments, case by case *)

Lemma _setup_loop_Ok draws c c' :
  _setup_loop draws c = Ok tt c' ->
  id c' <> 0 /\ cond c' = cond c /\ held c' = held c /\ mu c' = mu c /\
  (id c <> 0 -> c' = c).
Proof.
  revert c. induction draws as [|d draws IH]; intros c; simpl.
  - destruct (Z.eqb_spec (id c) 0); [done|].
    intros [= <-]. done.
  - destruct (Z.eqb_spec (id c) 0) as [Hz|Hz].
    + intros H. apply IH in H as (? & ? & ? & ? & _). simpl in *. done.
    + intros [= <-]. done.
Qed.

(** The loop of [_setup] ends as soon as a draw is not zero. *)
Lemma _setup_loop_total draws c :
  Exists (fun d => uint64 d <> 0) draws ->
  exists c', _setup_loop draws c = Ok tt c'.
Proof.
  intros Hex. revert c. induction Hex as [d draws Hd|d draws Hex IH]; intros c; simpl.
  - destruct (Z.eqb_spec (id c) 0); [|eauto].
    destruct draws; simpl; destruct (Z.eqb_spec (uint64 d) 0); try done; eauto.
  - destruct (Z.eqb_spec (id c) 0); eauto.
Qed.

Lemma bind_Ok {A B} (m : M A) (k : A -> M B) c b c' :
  bind m k c = Ok b c' -> exists a c1, m c = Ok a c1 /\ k a c1 = Ok b c'.
Proof. unfold bind. destruct (m c); try done. eauto. Qed.

Lemma _setup_Ok draws c c' :
  _setup draws c = Ok tt c' ->
  id c' <> 0 /\ held c' = held c /\ mu c' = mu c /\
  cond c' = match cond c with None => Some [] | Some ws => Some ws end /\
  (id c <> 0 -> id c' = id c).
Proof.
  unfold _setup. intros H. apply bind_Ok in H as (a & c1 & H1 & H2).
  apply _setup_loop_Ok in H2 as (Hid & Hc & Hh & Hm & Hst).
  unfold_lock. destruct (cond c) eqn:Hw; simplify_eq; simpl in *; 
  repeat split; try congruence; intros Hn; rewrite Hst by done; done.
Qed.

(** The state in which the body of [Lock] reads the depth. *)
Lemma Lock_setup_Ok draws c c2 :
  (if id c =? 0 then _setup draws else ret tt) c = Ok tt c2 ->
  id c2 <> 0 /\ held c2 = held c /\ mu c2 = mu c /\
  (id c <> 0 -> c2 = c) /\ (wf c -> cond c2 <> None).
Proof.
  destruct (Z.eqb_spec (id c) 0) as [Hz|Hz].
  - intros H. apply _setup_Ok in H as (? & ? & ? & Hc & ?).
    repeat split; try done. intros _. rewrite Hc. by destruct (cond c).
  - intros [= <-]. repeat split; try done. intros Hwf. by apply Hwf.
Qed.

Lemma Lock_cases ctx now draws c p c' :
  Lock ctx now draws c = Ok p c' ->
  mu c = false /\ id c' <> 0 /\ (id c <> 0 -> id c' = id c) /\
  (wf c -> cond c' <> None) /\
  match p with
  | AtWait d' =>
      d' = 0 /\ depth_of (id c') ctx = 0 /\ held c = true /\ held c' = true /\
      mu c' = true
  | Returned r =>
      mu c' = false /\
      r = match ctx_Err ctx now with
          | Some e => (None, Some e)
          | None => (Some (WithValue ctx (LockKey (id c'))
                       (IntVal (int_wrap (depth_of (id c') ctx + 1)))), None)
          end /\
      (if depth_of (id c') ctx =? 0 then held c = false /\ held c' = true
       else held c' = held c)
  end.
Proof.
  intros H. unfold Lock in H.
  apply bind_Ok in H as ([] & c1 & Hmu & H).
  unfold mu_Lock in Hmu. destruct (mu c) eqn:Hm; [done|]. simplify_eq.
  apply bind_Ok in H as (i & c1 & Hi & H). unfold gets in Hi. simplify_eq.
  apply bind_Ok in H as ([] & c2 & Hs & H).
  apply (Lock_setup_Ok draws (with_mu true c)) in Hs as (Hid & Hh & Hm2 & Hst & Hwf).
  simpl in *.
  assert (Hidc : id c <> 0 -> id c2 = id c) by (intros Hn; by rewrite Hst).
  assert (Hwf' : wf c -> cond c2 <> None) by (intros Hw; apply Hwf; exact Hw).
  clear Hst Hwf.
  destruct c2 as [w2 h2 m2 i2], c as [w h m i]; simpl in *. subst.
  unfold_lock; simpl in *.
  destruct (ctx_Err ctx now) eqn:He, (Z.eqb_spec (depth_of i2 ctx) 0) as [Hd|Hd], h, w2;
    simpl in H; simplify_eq; simpl;
    try rewrite Hd; simpl; repeat split; try done; try congruence.
  all: try (destruct (Z.eqb_spec (depth_of i2 ctx) 0); done).
Qed.

Lemma Lock_resume_cases me ctx now d werr c p c' :
  Lock_resume me ctx now d werr c = Ok p c' ->
  mu c = false /\ parked me c = false /\ id c' = id c /\
  (cond c <> None -> cond c' <> None) /\
  match werr with
  | Some e => p = Returned (Some ctx, Some e) /\ c' = c
  | None =>
      match p with
      | AtWait d' => d' = d /\ held c = true /\ c' = with_mu true c
      | Returned r =>
          held c = false /\ held c' = true /\ mu c' = false /\
          r = match ctx_Err ctx now with
              | Some e => (None, Some e)
              | None => (Some (WithValue ctx (LockKey (id c))
                           (IntVal (int_wrap (d + 1)))), None)
              end
      end
  end.
Proof.
  destruct c as [w h m i]. unfold_lock; simpl.
  destruct w as [ws|]; simpl; [destruct (bool_decide (me ∈ ws)); simpl|];
    destruct m, werr, h, (ctx_Err ctx now); simpl; intros H; simplify_eq;
    simpl; repeat split; done.
Qed.

Lemma Unlock_cases ctx now c r c' :
  Unlock ctx now c = Ok r c' ->
  mu c = false /\ mu c' = false /\ id c' = id c /\
  (cond c <> None -> cond c' <> None) /\
  if (id c =? 0) || ((depth_of (id c) ctx =? 0) && negb (held c))
  then r = (Some ctx, None) /\ c' = c
  else
    held c' = (if (depth_of (id c) ctx =? 0) || (depth_of (id c) ctx =? 1)
               then false else held c) /\
    cond c' = match ctx_Err ctx now with
              | Some _ => Some []
              | None =>
                  if (depth_of (id c) ctx =? 0) || (depth_of (id c) ctx =? 1)
                  then tail <$> cond c else cond c
              end /\
    r = match ctx_Err ctx now with
        | Some e => (None, Some e)
        | None =>
            (Some (WithValue ctx (LockKey (id c))
               (IntVal (if 0 <? depth_of (id c) ctx
                        then depth_of (id c) ctx - 1
                        else depth_of (id c) ctx))), None)
        end.
Proof.
  destruct c as [w h m i]. intros H. unfold_lock. cbn in *.
  repeat (destruct_inner H; cbn in *; try discriminate H).
  all: simplify_eq; cbn; repeat split; done.
Qed.

Lemma Clear_cases ctx now c r c' :
  Clear ctx now c = Ok r c' ->
  mu c = false /\ mu c' = false /\ id c' = id c /\ held c' = held c /\
  (cond c <> None -> cond c' <> None) /\
  if held c
  then
    r = match ctx_Err ctx now with
        | Some e => (None, Some e)
        | None => (Some (WithValue ctx (LockKey (id c)) (IntVal 0)), None)
        end /\
    cond c' = match ctx_Err ctx now with
              | Some _ => Some []
              | None => cond c
              end
  else r = (Some ctx, None) /\ c' = c.
Proof.
  destruct c as [w h m i]. unfold_lock; simpl.
  destruct m, h, w, (ctx_Err ctx now); simpl; intros H; simplify_eq;
    simpl; repeat split; done.
Qed.

Lemma cond_Wait_park_cases me c c' :
  cond_Wait_park me c = Ok tt c' ->
  mu c = true /\ mu c' = false /\ id c' = id c /\ held c' = held c /\
  exists ws, cond c = Some ws /\ cond c' = Some (ws ++ [me]).
Proof.
  destruct c as [w h m i]. unfold_lock; simpl.
  destruct w, m; simpl; intros H; simplify_eq; simpl; repeat split; eauto.
Qed.

Lemma cond_Broadcast_cases c c' :
  cond_Broadcast c = Ok tt c' ->
  mu c' = mu c /\ id c' = id c /\ held c' = held c /\ cond c' = Some [].
Proof.
  destruct c as [w h m i]. unfold_lock; simpl.
  destruct w; simpl; intros H; simplify_eq; done.
Qed.



(** The segments return: with the mutex free and the lock set up (or a
    non-zero draw to come), none of them panics or diverges. *)

Lemma _setup_total draws c :
  Exists (fun d => uint64 d <> 0) draws -> exists c', _setup draws c = Ok tt c'.
Proof.
  intros Hex. unfold _setup, bind, gets, modify, ret.
  destruct (cond c); by apply _setup_loop_total.
Qed.

Lemma Lock_total ctx now draws c :
  mu c = false -> wf c ->
  id c <> 0 \/ Exists (fun d => uint64 d <> 0) draws ->
  exists p c', Lock ctx now draws c = Ok p c'.
Proof.
  intros Hm Hwf Hdraws. unfold Lock.
  unfold bind at 1. unfold mu_Lock. rewrite Hm.
  unfold bind at 1. unfold gets at 1. unfold bind at 1.
  assert (exists c2, (if id (with_mu true c) =? 0 then _setup draws else ret tt)
                       (with_mu true c) = Ok tt c2 /\
                     mu c2 = true /\ cond c2 <> None) as (c2 & -> & Hm2 & Hc2).
  { simpl. destruct (Z.eqb_spec (id c) 0) as [Hz|Hz].
    - destruct Hdraws as [?|Hex]; [done|].
      destruct (_setup_total draws (with_mu true c) Hex) as [c2 Hc2].
      exists c2. split; [done|].
      apply _setup_Ok in Hc2 as (_ & _ & Hmm & Hcc & _). simpl in *.
      split; [done|]. rewrite Hcc. by destruct (cond c).
    - exists (with_mu true c). repeat split. simpl. by apply Hwf. }
  destruct c2 as [[ws|] h2 m2 i2]; simpl in *; [|done]. subst m2.
  unfold_lock; cbn.
  destruct (depth_of i2 ctx =? 0), h2, (ctx_Err ctx now); cbn; eauto.
Qed.

Lemma Lock_resume_total me ctx now d werr c :
  mu c = false -> parked me c = false -> cond c <> None ->
  exists p c', Lock_resume me ctx now d werr c = Ok p c'.
Proof.
  destruct c as [[ws|] h m i]; simpl; intros Hm Hp Hc; [|done]. subst m.
  unfold_lock; cbn in *. rewrite Hp. cbn.
  destruct werr, h, (ctx_Err ctx now); cbn; eauto.
Qed.

Lemma Unlock_total ctx now c :
  mu c = false -> wf c -> exists r c', Unlock ctx now c = Ok r c'.
Proof.
  destruct c as [w h m i]; unfold wf; simpl; intros Hm Hwf. subst m.
  unfold_lock; cbn.
  destruct (Z.eqb_spec i 0) as [Hi|Hi]; cbn; [eauto|].
  destruct w as [ws|]; [|by destruct Hwf].
  destruct (depth_of i ctx =? 0), (depth_of i ctx =? 1), h, (ctx_Err ctx now);
    cbn; eauto.
Qed.

Lemma Clear_total ctx now c :
  mu c = false -> lock_ok c -> exists r c', Clear ctx now c = Ok r c'.
Proof.
  destruct c as [w h m i]; unfold lock_ok, wf; simpl; intros Hm [Hh Hwf]. subst m.
  unfold_lock; cbn.
  destruct h; cbn; [|eauto].
  destruct w as [ws|]; [|by destruct Hwf; auto].
  destruct (ctx_Err ctx now); cbn; eauto.
Qed.

(** ** Release *)

(** C7. [Unlock] called on a lock that was never set up (identifier 0), or
    with a context at depth 0 while the lock is not held, returns the
    context it was given and a nil error, and leaves the whole lock as it
    was. *)
Theorem Unlock_noop ctx now c :
  mu c = false ->
  id c = 0 \/ (depth_of (id c) ctx = 0 /\ held c = false) ->
  Unlock ctx now c = Ok (Some ctx, None) c.
Proof.
  intros Hm Hc. destruct c as [w h m i]; simpl in *; subst m.
  unfold_lock; cbn.
  destruct Hc as [-> | [Hd ->]]; [done|].
  destruct (i =? 0); [done|]. cbn. rewrite Hd. done.
Qed.

Lemma Unlock_noop_witness :
  Unlock cancelled 5 zero = Ok (Some cancelled, None) zero.
Proof. apply Unlock_noop; [reflexivity | left; reflexivity]. Defined.

(** ** Re-entrant acquisition *)

(** C2. With a context at depth [N >= 1] whose cancellation has not fired,
    [Lock] returns from its first segment (it never reaches [_wait]),
    leaves the lock as it was, [held] included, and returns a context at
    depth [N + 1], computed on Go's [int]: it is the integer [N + 1]
    whenever [N] is below the largest [int]. *)
Theorem Lock_reentrant ctx now draws c N :
  mu c = false -> id c <> 0 ->
  depth_of (id c) ctx = N -> 1 <= N -> ctx_Err ctx now = None ->
  exists ctx',
    Lock ctx now draws c = Ok (Returned (Some ctx', None)) c /\
    depth_of (id c) ctx' = int_wrap (N + 1) /\
    (N < max_int -> depth_of (id c) ctx' = N + 1).
Proof.
  intros Hm Hi Hd HN He.
  exists (WithValue ctx (LockKey (id c)) (IntVal (int_wrap (N + 1)))).
  rewrite depth_of_WithValue. split; [|split; [done|]].
  - destruct c as [w h m i]; simpl in *; subst m.
    unfold_lock; cbn.
    destruct (Z.eqb_spec i 0); [done|]. cbn.
    rewrite Hd. destruct (Z.eqb_spec N 0); [lia|].
    rewrite He. done.
  - intros Hlt. apply int_wrap_small. unfold max_int in *. lia.
Qed.

Lemma Lock_reentrant_witness :
  exists ctx',
    Lock (at_depth 1) 0 [] busy = Ok (Returned (Some ctx', None)) busy /\
    depth_of 7 ctx' = int_wrap (1 + 1) /\
    (1 < max_int -> depth_of 7 ctx' = 1 + 1).
Proof.
  apply (Lock_reentrant (at_depth 1) 0%nat [] busy 1);
    [reflexivity | discriminate | reflexivity | lia | reflexivity].
Defined.

(** ** Release, in full *)

(** C3, as stated, fails when the context is cancelled: at depth 2 the
    finalisation of [Unlock] broadcasts and wakes both waiting goroutines;
    at depth 1 the signal is followed by that broadcast, so more than one
    goroutine wakes. *)
Lemma Unlock_cancelled_wakes_all :
  ~ (forall ctx now c r c',
       mu c = false -> id c <> 0 -> 1 < depth_of (id c) ctx ->
       Unlock ctx now c = Ok r c' ->
       cond c' = cond c) /\
  ~ (forall ctx now c r c',
       mu c = false -> id c <> 0 -> depth_of (id c) ctx = 1 ->
       Unlock ctx now c = Ok r c' ->
       cond c' = tail <$> cond c).
Proof.
  split; intros H.
  - specialize (H (WithValue cancelled (LockKey 7) (IntVal 2)) 0%nat busy
                  (None, Some Canceled) (with_cond (Some []) busy)).
    discriminate H; done.
  - specialize (H (WithValue cancelled (LockKey 7) (IntVal 1)) 0%nat busy
                  (None, Some Canceled)
                  (with_held false (with_cond (Some []) busy))).
    discriminate H; done.
Qed.

(** C3, amended.  On a lock that is set up, [Unlock] returns, and unless
    it is the no-op of depth 0 on a lock that is not held:
    - it sets [held] to false exactly when the depth is 1, or 0 while the
      lock is held, and leaves [held] as it was otherwise;
    - if the cancellation of the context has not fired, in that same case
      it signals, which wakes the goroutine that has waited longest and no
      other, and otherwise wakes nobody; the context it returns carries
      the depth decremented by 1 when it was positive;
    - if the cancellation has fired, it broadcasts, which wakes every
      waiting goroutine, and returns the error. *)
Theorem Unlock_release ctx now c ws :
  mu c = false -> id c <> 0 -> cond c = Some ws ->
  let d := depth_of (id c) ctx in
  let full := (d =? 1) || ((d =? 0) && held c) in
  exists r c',
    Unlock ctx now c = Ok r c' /\
    if (d =? 0) && negb (held c) then r = (Some ctx, None) /\ c' = c
    else
      id c' = id c /\ mu c' = false /\
      held c' = (if full then false else held c) /\
      match ctx_Err ctx now with
      | None =>
          cond c' = Some (if full then tail ws else ws) /\
          r = (Some (WithValue ctx (LockKey (id c))
                       (IntVal (if 0 <? d then d - 1 else d))), None)
      | Some e => cond c' = Some [] /\ snd r = Some e
      end.
Proof.
  destruct c as [w h m i]; simpl. intros -> Hi ->.
  unfold_lock; cbn.
  destruct (Z.eqb_spec i 0) as [|_]; [done|]. cbn.
  destruct (Z.eqb_spec (depth_of i ctx) 0) as [Hd|Hd]; cbn.
  - rewrite Hd. destruct h, (ctx_Err ctx now); cbn; eauto 10.
  - destruct (Z.eqb_spec (depth_of i ctx) 1) as [Hd1|Hd1]; cbn.
    + rewrite Hd1. destruct (ctx_Err ctx now); cbn; eauto 10.
    + destruct (ctx_Err ctx now); cbn; eauto 10.
Qed.

Lemma Unlock_release_witness :
  exists r c',
    Unlock (at_depth 1) 0 busy = Ok r c' /\
    id c' = 7 /\ mu c' = false /\ held c' = false /\
    cond c' = Some [2%nat] /\
    r = (Some (WithValue (at_depth 1) (LockKey 7) (IntVal 0)), None).
Proof.
  apply (Unlock_release (at_depth 1) 0%nat busy [1%nat; 2%nat]);
    [reflexivity | discriminate | reflexivity].
Defined.

(** ** Reset *)

(** C6, as stated, fails on a held lock when the context is cancelled:
    [Clear] does not build the context at depth 0 but returns the error,
    and its broadcast empties the notify list. *)
Lemma Clear_cancelled_broadcasts :
  ~ (forall ctx now c r c',
       mu c = false -> held c = true ->
       Clear ctx now c = Ok r c' ->
       fst r = Some (WithValue ctx (LockKey (id c)) (IntVal 0)) /\ c' = c).
Proof.
  intros H.
  destruct (H cancelled 0%nat busy (None, Some Canceled)
              (with_cond (Some []) busy)) as [_ Hc]; done.
Qed.

(** C6, amended.  [Clear] returns and leaves [held] and the identifier as
    they were.
    - On a held lock, with a context whose cancellation has not fired, the
      lock is unchanged and the returned context has depth 0 for this lock,
      answers every other key as the input does and has the input's
      cancellation.
    - On a held lock, with a cancelled context, it returns the error,
      having woken every waiting goroutine.
    - On a lock that is not held it returns the input context and a nil
      error, the lock unchanged. *)
Theorem Clear_spec ctx now c :
  mu c = false -> lock_ok c ->
  exists r c',
    Clear ctx now c = Ok r c' /\
    held c' = held c /\ id c' = id c /\ mu c' = false /\
    if held c then
      match ctx_Err ctx now with
      | None =>
          c' = c /\
          exists ctx',
            r = (Some ctx', None) /\
            depth_of (id c) ctx' = 0 /\
            (forall k, k <> LockKey (id c) -> ctx_Value ctx' k = ctx_Value ctx k) /\
            (forall t, ctx_Err ctx' t = ctx_Err ctx t)
      | Some e => snd r = Some e /\ cond c' = Some []
      end
    else r = (Some ctx, None) /\ c' = c.
Proof.
  destruct c as [w h m i]; unfold lock_ok, wf; simpl. intros -> [Hh Hwf].
  unfold_lock; cbn.
  destruct h; cbn; [|eauto 10].
  destruct w as [ws|]; [|by destruct Hwf; auto].
  destruct (ctx_Err ctx now) eqn:He; cbn.
  - eauto 10.
  - do 2 eexists. split; [reflexivity|]. repeat split.
    eexists. split; [reflexivity|]. split; [apply depth_of_WithValue|].
    split; [|done]. intros k Hk. by apply ctx_Value_WithValue_ne.
Qed.

Lemma Clear_spec_witness :
  exists r c',
    Clear (at_depth 3) 0 busy = Ok r c' /\
    held c' = true /\ id c' = 7 /\ mu c' = false /\
    c' = busy /\
    exists ctx',
      r = (Some ctx', None) /\
      depth_of 7 ctx' = 0 /\
      (forall k, k <> LockKey 7 -> ctx_Value ctx' k = ctx_Value (at_depth 3) k) /\
      (forall t, ctx_Err ctx' t = ctx_Err (at_depth 3) t).
Proof.
  apply (Clear_spec (at_depth 3) 0%nat busy); [reflexivity|].
  split; [discriminate | intros _; discriminate].
Defined.

(** ** Cancellation *)

(** C4.  The documentation of [Lock], [Unlock] and [Clear] says the
    returned context is never nil.  With a context whose cancellation has
    fired, each of them returns a nil context next to the error: [Lock] on
    the zero value, [Unlock] at depth 1 and [Clear] on a held lock. *)
Theorem cancelled_returns_nil_context :
  Lock cancelled 0 [7] zero =
    Ok (Returned (None, Some Canceled))
       {| cond := Some []; held := true; mu := false; id := 7 |} /\
  Unlock (WithValue cancelled (LockKey 7) (IntVal 1)) 0 busy =
    Ok (None, Some Canceled)
       {| cond := Some []; held := false; mu := false; id := 7 |} /\
  Clear cancelled 0 busy =
    Ok (None, Some Canceled)
       {| cond := Some []; held := true; mu := false; id := 7 |}.
Proof. repeat split. Qed.

(** C5, as stated, fails for [Unlock]: on a lock that was never set up, and
    at depth 0 on a lock that is not held, a cancelled context gets a nil
    error. *)
Lemma Unlock_cancelled_reports_success :
  ~ (forall ctx now e c r c',
       ctx_Err ctx now = Some e ->
       Unlock ctx now c = Ok r c' -> snd r = Some e).
Proof.
  intros H.
  specialize (H cancelled 0%nat Canceled zero (Some cancelled, None) zero).
  discriminate H; reflexivity.
Qed.

(** C5, amended.  With a context whose cancellation has fired:
    - the first segment of [Lock] returns, and either returns the error or
      stops at the wait (depth 0 on a held lock);
    - [Lock] woken from its wait returns, and either returns the error or
      waits again;
    - [Unlock] returns, with a nil error on its two no-op paths and the
      error otherwise.
    Nothing is checked before the state is changed: the error comes from
    the wait or from the finalisation in [_withDepth]. *)
Theorem cancelled_calls ctx now e :
  ctx_Err ctx now = Some e ->
  (forall draws c,
     mu c = false -> wf c ->
     id c <> 0 \/ Exists (fun d => uint64 d <> 0) draws ->
     exists p c',
       Lock ctx now draws c = Ok p c' /\
       ((exists r, p = Returned (r, Some e)) \/
        p = AtWait 0 /\ held c = true /\ depth_of (id c') ctx = 0)) /\
  (forall me d werr c,
     mu c = false -> parked me c = false -> cond c <> None ->
     werr = None \/ werr = Some e ->
     exists p c',
       Lock_resume me ctx now d werr c = Ok p c' /\
       ((exists r, p = Returned (r, Some e)) \/
        p = AtWait d /\ werr = None /\ held c = true)) /\
  (forall c,
     mu c = false -> wf c ->
     exists r c',
       Unlock ctx now c = Ok r c' /\
       if (id c =? 0) || ((depth_of (id c) ctx =? 0) && negb (held c))
       then r = (Some ctx, None) /\ c' = c
       else snd r = Some e).
Proof.
  intros He. repeat split.
  - intros draws c Hm Hwf Hd.
    destruct (Lock_total ctx now draws c Hm Hwf Hd) as (p & c' & HL).
    exists p, c'. split; [done|].
    apply Lock_cases in HL as (_ & _ & _ & _ & Hp).
    destruct p as [r|d'].
    + left. destruct Hp as (_ & -> & _). rewrite He. eauto.
    + right. destruct Hp as (-> & ? & ? & _). done.
  - intros me d werr c Hm Hp Hc Hw.
    destruct (Lock_resume_total me ctx now d werr c Hm Hp Hc) as (p & c' & HL).
    exists p, c'. split; [done|].
    apply Lock_resume_cases in HL as (_ & _ & _ & _ & Hcase).
    destruct Hw as [-> | ->].
    + destruct p as [r|d'].
      * left. destruct Hcase as (_ & _ & _ & ->). rewrite He. eauto.
      * right. destruct Hcase as (-> & ? & _). done.
    + left. destruct Hcase as [-> _]. eauto.
  - intros c Hm Hwf.
    destruct (Unlock_total ctx now c Hm Hwf) as (r & c' & HU).
    exists r, c'. split; [done|].
    apply Unlock_cases in HU as (_ & _ & _ & _ & Hcase).
    destruct ((id c =? 0) || (depth_of (id c) ctx =? 0) && negb (held c)); [done|].
    destruct Hcase as (_ & _ & ->). by rewrite He.
Qed.

Lemma cancelled_calls_witness :
  exists p c',
    Lock cancelled 0 [7] zero = Ok p c' /\
    ((exists r, p = Returned (r, Some Canceled)) \/
     p = AtWait 0 /\ held zero = true /\ depth_of (id c') cancelled = 0).
Proof.
  apply (proj1 (cancelled_calls cancelled 0%nat Canceled eq_refl));
    [reflexivity | intros H; by destruct H | right].
  apply Exists_cons_hd. discriminate.
Defined.

(** C1, as stated, fails on both methods.  [Unlock] at depth 1 with a
    cancelled context returns the error after it has released the lock;
    [Lock] at depth 0 on a lock that is not held, with a cancelled context,
    returns the error after it has set [held]. *)
Lemma error_return_changes_held :
  ~ (forall ctx now c r e c',
       Unlock ctx now c = Ok (r, Some e) c' -> held c' = held c) /\
  ~ (forall ctx now draws c r e c',
       Lock ctx now draws c = Ok (Returned (r, Some e)) c' ->
       held c' = held c).
Proof.
  split; intros H.
  - specialize (H (WithValue cancelled (LockKey 7) (IntVal 1)) 0%nat busy
                  None Canceled
                  {| cond := Some []; held := false; mu := false; id := 7 |}).
    discriminate H; reflexivity.
  - specialize (H cancelled 0%nat [7] zero None Canceled
                  {| cond := Some []; held := true; mu := false; id := 7 |}).
    discriminate H; reflexivity.
Qed.

(** C1, amended.
    - A goroutine woken from the wait of [Lock] after its watcher has seen
      the cancellation returns the context it was given and the error, and
      leaves the whole lock, [held] included, as it found it.
    - [Lock] called at a depth other than 0 that returns an error leaves
      [held] as it was.
    - [Unlock] that returns an error has done its transition all the same:
      [held] is false if the depth was 0 or 1, and as it was otherwise.
    ([Lock] at depth 0 that finds the context cancelled in its finalisation
    is left out.) *)
Theorem error_paths ctx now e :
  (forall me d c,
     mu c = false -> parked me c = false ->
     Lock_resume me ctx now d (Some e) c = Ok (Returned (Some ctx, Some e)) c) /\
  (forall draws c r c',
     Lock ctx now draws c = Ok (Returned (r, Some e)) c' ->
     depth_of (id c') ctx <> 0 -> held c' = held c) /\
  (forall c r c',
     Unlock ctx now c = Ok (r, Some e) c' ->
     held c' = if (depth_of (id c) ctx =? 0) || (depth_of (id c) ctx =? 1)
               then false else held c).
Proof.
  repeat split.
  - intros me d [w h m i]; simpl. intros -> Hp.
    unfold_lock; cbn in *. rewrite Hp. done.
  - intros draws c r c' HL Hd.
    apply Lock_cases in HL as (_ & _ & _ & _ & _ & _ & Hh).
    destruct (Z.eqb_spec (depth_of (id c') ctx) 0); done.
  - intros c r c' HU.
    apply Unlock_cases in HU as (_ & _ & _ & _ & Hcase).
    destruct ((id c =? 0) || (depth_of (id c) ctx =? 0) && negb (held c)).
    + destruct Hcase as [? _]. done.
    + by destruct Hcase as (-> & _).
Qed.

Lemma error_paths_witness :
  Lock_resume 1%nat cancelled 0 0 (Some Canceled) (with_cond (Some [2%nat]) busy) =
  Ok (Returned (Some cancelled, Some Canceled)) (with_cond (Some [2%nat]) busy).
Proof.
  apply (proj1 (error_paths cancelled 0%nat Canceled)); reflexivity.
Defined.

(** ** Lazy set-up *)

Lemma _setup_loop_first zs d rest c :
  Forall (fun z => uint64 z = 0) zs -> uint64 d <> 0 -> id c = 0 ->
  _setup_loop (zs ++ d :: rest) c = Ok tt (with_id (uint64 d) c).
Proof.
  intros Hzs Hd. revert c.
  induction Hzs as [|z zs Hz _ IH]; intros c Hc; simpl; rewrite Hc; simpl.
  - destruct rest; simpl; destruct (Z.eqb_spec (uint64 d) 0); done.
  - rewrite IH by (simpl; done). done.
Qed.

(** C8, as stated, fails: [Unlock] and [Clear] on the zero value return
    without creating the identifier or the condition variable, and two
    locks set up from the same draw carry the same identifier. *)
Lemma only_Lock_sets_up :
  ~ (forall ctx now r c',
       Unlock ctx now zero = Ok r c' -> id c' <> 0 /\ cond c' <> None) /\
  ~ (forall ctx now r c',
       Clear ctx now zero = Ok r c' -> id c' <> 0 /\ cond c' <> None) /\
  ~ (forall ctx1 ctx2 now1 now2 draws1 draws2 p1 p2 a b,
       Lock ctx1 now1 draws1 zero = Ok p1 a ->
       Lock ctx2 now2 draws2 zero = Ok p2 b ->
       id a <> id b).
Proof.
  repeat split; intros H.
  - destruct (H Background 0%nat (Some Background, None) zero) as [Hi _]; done.
  - destruct (H Background 0%nat (Some Background, None) zero) as [Hi _]; done.
  - eapply (H Background cancelled 0%nat 1%nat [7] [0; 7; 9]); reflexivity.
Qed.

(** C8, amended.
    - The first call of [Lock] on the zero value creates the condition
      variable and sets the identifier to the first draw that is not zero.
    - [Unlock] and [Clear] on the zero value leave it as it is.
    - After any call of [Lock] the identifier is not zero, and once it is
      not zero no method changes it.
    Whether two locks get different identifiers rests on their draws. *)
Theorem lazy_setup ctx now :
  (forall zs d rest,
     Forall (fun z => uint64 z = 0) zs -> uint64 d <> 0 ->
     exists p c',
       Lock ctx now (zs ++ d :: rest) zero = Ok p c' /\
       id c' = uint64 d /\ cond c' = Some []) /\
  Unlock ctx now zero = Ok (Some ctx, None) zero /\
  Clear ctx now zero = Ok (Some ctx, None) zero /\
  (forall draws c p c',
     Lock ctx now draws c = Ok p c' ->
     id c' <> 0 /\ (id c <> 0 -> id c' = id c)) /\
  (forall me d werr c p c',
     Lock_resume me ctx now d werr c = Ok p c' -> id c' = id c) /\
  (forall c r c', Unlock ctx now c = Ok r c' -> id c' = id c) /\
  (forall c r c', Clear ctx now c = Ok r c' -> id c' = id c).
Proof.
  repeat split.
  - intros zs d rest Hzs Hd.
    unfold Lock, bind, mu_Lock, gets, zero; simpl.
    unfold _setup, bind, gets, modify; simpl.
    rewrite _setup_loop_first by done.
    unfold_lock; cbn.
    destruct (depth_of (uint64 d) ctx =? 0), (ctx_Err ctx now); cbn; eauto.
  - by apply Lock_cases in H as (_ & ? & _).
  - by apply Lock_cases in H as (_ & _ & ? & _).
  - intros me d werr c p c' H.
    by apply Lock_resume_cases in H as (_ & _ & ? & _).
  - intros c r c' H. by apply Unlock_cases in H as (_ & _ & ? & _).
  - intros c r c' H. by apply Clear_cases in H as (_ & _ & ? & _).
Qed.

Lemma lazy_setup_witness :
  exists p c',
    Lock Background 0 ([0; 2 ^ 64] ++ 7 :: [9]) zero = Ok p c' /\
    id c' = uint64 7 /\ cond c' = Some [].
Proof.
  apply (proj1 (lazy_setup Background 0%nat)).
  - repeat constructor.
  - discriminate.
Defined.

(** ** The invariant of the goroutines *)

Lemma pc_of_insert c n m o t t' pc :
  pc_of {| lock := c; clock := n; pcs := <[t := pc]> m; orphans := o |} t' =
  if decide (t = t') then pc else default Idle (m !! t').
Proof.
  unfold pc_of; simpl. rewrite lookup_insert. by destruct (decide (t = t')).
Qed.

Lemma lookup_after_Lock t ctx p (m : gmap tid Pc) t' :
  default Idle (after_Lock t ctx p m !! t') =
  if decide (t = t')
  then match p with Returned _ => Idle | AtWait d => Spawned ctx d None end
  else default Idle (m !! t').
Proof.
  unfold after_Lock. destruct p; rewrite lookup_insert;
    by destruct (decide (t = t')).
Qed.

Lemma lookup_set_pc t pc (m : gmap tid Pc) t' :
  default Idle (<[t := pc]> m !! t') =
  if decide (t = t') then pc else default Idle (m !! t').
Proof. rewrite lookup_insert. by destruct (decide (t = t')). Qed.

Lemma sys_inv_init : sys_inv init.
Proof.
  unfold sys_inv, init, pc_of, lock_ok, wf; simpl.
  repeat split; try done; intros *; rewrite lookup_empty; done.
Qed.

Lemma step_sys_inv s l s' : step s l s' -> sys_inv s -> sys_inv s'.
Proof.
  intros Hstep (Hok & Hpc & Hsp & Huniq).
  destruct Hok as [Hheld Hwf].
  assert (Hfree : mu (lock s) = false ->
                  forall t ctx d w, default Idle (pcs s !! t) <> Spawned ctx d w).
  { intros Hm t ctx d w Ht. apply Hsp in Ht. congruence. }
  unfold sys_inv, lock_ok, wf in *.
  inversion Hstep; subst; unfold pc_of in *; simpl in *.
  - (* Lock *)
    apply Lock_cases in H0 as (Hm & Hid & Hst & Hc & Hp).
    specialize (Hfree Hm).
    repeat split; intros *; rewrite ?lookup_after_Lock; try done.
    + intros _. by apply Hc.
    + case_decide; [|intros Ht; by apply Hfree in Ht].
      destruct p; [done|]. intros _. by destruct Hp as (_ & _ & _ & _ & ?).
    + repeat case_decide; try congruence; intros Ht1 Ht2;
        solve [by apply Hfree in Ht1 | by apply Hfree in Ht2].
  - (* Park *)
    apply cond_Wait_park_cases in H0 as (Hm & Hm' & Hid & Hh & ws & Hws & Hws').
    assert (Hi : id (lock s) <> 0) by (apply (Hpc t); by rewrite H).
    repeat split; intros *; rewrite ?lookup_set_pc; try congruence.
    + case_decide; [done|]. intros Ht.
      by pose proof (Huniq _ _ _ _ _ _ _ _ H Ht).
    + repeat case_decide; try congruence; try done. eauto.
  - (* Resume *)
    apply Lock_resume_cases in H0 as (Hm & Hpk & Hid & Hc & Hp).
    specialize (Hfree Hm).
    assert (Hi : id (lock s) <> 0) by (apply (Hpc t); by rewrite H).
    repeat split; intros *; rewrite ?lookup_after_Lock; try congruence.
    + intros Hn. apply Hc, Hwf. congruence.
    + case_decide; [|intros Ht; by apply Hfree in Ht].
      destruct p; [done|]. intros _.
      destruct werr; [by destruct Hp|]. by destruct Hp as (_ & _ & ->).
    + repeat case_decide; try congruence; intros Ht1 Ht2;
        solve [by apply Hfree in Ht1 | by apply Hfree in Ht2].
  - (* Unlock *)
    apply Unlock_cases in H0 as (Hm & Hm' & Hid & Hc & Hp).
    specialize (Hfree Hm).
    repeat split; intros *; try congruence.
    + intros Hh. rewrite Hid. apply Hheld.
      destruct ((id (lock s) =? 0) || (depth_of (id (lock s)) ctx =? 0) && negb (held (lock s))).
      * destruct Hp as [_ ->]. done.
      * destruct Hp as (Hh' & _). rewrite Hh' in Hh.
        by destruct ((depth_of (id (lock s)) ctx =? 0) || (depth_of (id (lock s)) ctx =? 1)).
    + intros Hn. apply Hc, Hwf. congruence.
    + rewrite Hid. eauto.
    + intros Ht. by apply Hfree in Ht.
    + eauto.
  - (* Clear *)
    apply Clear_cases in H0 as (Hm & Hm' & Hid & Hh & Hc & Hp).
    specialize (Hfree Hm).
    repeat split; intros *; try congruence.
    + rewrite Hh, Hid. done.
    + intros Hn. apply Hc, Hwf. congruence.
    + rewrite Hid. eauto.
    + intros Ht. by apply Hfree in Ht.
    + eauto.
  - (* the watcher of a goroutine that has not called Wait yet *)
    apply cond_Broadcast_cases in H1 as (Hm & Hid & Hh & Hc).
    rewrite Hid, Hm, Hh, Hc.
    repeat split; intros *; rewrite ?lookup_set_pc; try done.
    + intros _. apply (Hpc t). by rewrite H.
    + case_decide; [intros _; by eapply Hsp|by apply Hsp].
    + repeat case_decide; try congruence; intros Ht1 Ht2; simplify_eq; eauto.
  - (* the watcher of a goroutine inside Wait *)
    apply cond_Broadcast_cases in H1 as (Hm & Hid & Hh & Hc).
    rewrite Hid, Hm, Hh, Hc.
    repeat split; intros *; rewrite ?lookup_set_pc; try done.
    + intros _. apply (Hpc t). by rewrite H.
    + case_decide; [done|by apply Hsp].
    + repeat case_decide; try congruence; try done. eauto.
  - (* a watcher left behind *)
    apply cond_Broadcast_cases in H1 as (Hm & Hid & Hh & Hc).
    rewrite Hid, Hm, Hh, Hc.
    repeat split; intros *; eauto; done.
  - repeat split; eauto.
  - repeat split; eauto.
Qed.

Lemma reachable_sys_inv s : reachable s -> sys_inv s.
Proof.
  unfold reachable. revert s. apply rtc_ind_r; [apply sys_inv_init|].
  intros s s' _ [l Hl] IH. eauto using step_sys_inv.
Qed.

Lemma Unlock_no_panic ctx now c : wf c -> Unlock ctx now c <> Panic.
Proof.
  intros Hwf. destruct (mu c) eqn:Hm.
  - unfold Unlock, bind, mu_Lock. by rewrite Hm.
  - destruct (Unlock_total ctx now c Hm Hwf) as (r & c' & ->). done.
Qed.

Lemma Clear_no_panic ctx now c : lock_ok c -> Clear ctx now c <> Panic.
Proof.
  intros Hok. destruct (mu c) eqn:Hm.
  - unfold Clear, bind, mu_Lock. by rewrite Hm.
  - destruct (Clear_total ctx now c Hm Hok) as (r & c' & ->). done.
Qed.

(** ** Call paths *)

Lemma frames_of_insert (fs : Frames) t l t' :
  frames_of (<[t := l]> fs) t' = if decide (t = t') then l else frames_of fs t'.
Proof. unfold frames_of. rewrite lookup_insert. by destruct (decide (t = t')). Qed.

Lemma frames_of_push fs t p t' :
  frames_of (push t p fs) t' =
  if decide (t = t')
  then match p with
       | Returned (Some ctx', None) => ctx' :: frames_of fs t
       | _ => frames_of fs t
       end
  else frames_of fs t'.
Proof.
  unfold push.
  destruct p as [[[ctx'|] [e|]]|d]; rewrite ?frames_of_insert;
    destruct (decide (t = t')); by subst.
Qed.

(** A step that opens and closes no frame, releases nothing and keeps the
    paths inside their section out of [Lock] keeps the invariant. *)
Lemma cinv_same_frames s s' fs :
  cinv (s, fs) -> sys_inv s' ->
  (held (lock s) = true -> held (lock s') = true) ->
  (id (lock s) <> 0 -> id (lock s') = id (lock s)) ->
  (forall t, in_section fs t -> pc_of s t = Idle -> pc_of s' t = Idle) ->
  (forall t, waits_at_zero (pc_of s' t)) ->
  cinv (s', fs).
Proof.
  intros (Hsys & Hsec & Hmutex & Hzero) Hsys' Hheld Hid Hidle Hzero'.
  split; [done|]. split; [|by split].
  intros t Ht. destruct (Hsec t Ht) as (Hh & Hp & Hf).
  split; [by apply Hheld|]. split; [by apply Hidle|].
  rewrite Hid; [done|]. by apply Hsys.
Qed.

Lemma cinv_init : cinv (init, ∅).
Proof.
  split; [apply sys_inv_init|].
  unfold in_section, frames_of, pc_of; simpl.
  repeat split; intros *; rewrite ?lookup_empty; done.
Qed.


(** The first frame of a path: the lock was free and is now held. *)
Lemma cinv_open s s' fs t ctx' :
  cinv (s, fs) -> sys_inv s' ->
  held (lock s) = false -> held (lock s') = true ->
  pc_of s' t = Idle ->
  depth_of (id (lock s')) ctx' = 1 ->
  (forall t0, waits_at_zero (pc_of s' t0)) ->
  cinv (s', <[t := [ctx']]> fs).
Proof.
  intros (Hsys & Hsec & Hmutex & Hzero) Hsys' Hfree Hheld Hidle Hd Hzero'.
  assert (Hnone : forall t0, ~ in_section fs t0).
  { intros t0 Ht0. apply Hsec in Ht0 as (? & _). congruence. }
  assert (Hin : forall t0, in_section (<[t := [ctx']]> fs) t0 -> t0 = t).
  { intros t0. unfold in_section. rewrite frames_of_insert.
    case_decide; [done|]. intros Ht0. by destruct (Hnone t0). }
  split; [done|]. split; [|split; [|done]].
  - intros t0 Ht0. apply Hin in Ht0 as ->.
    rewrite frames_of_insert. case_decide; [|done]. simpl.
    repeat split; done.
  - intros t1 t2 Ht1 Ht2. apply Hin in Ht1, Ht2. congruence.
Qed.

(** A nested frame: nothing changes but the depth of the path. *)
Lemma cinv_nest s s' fs t ctx ctx' rest :
  cinv (s, fs) -> sys_inv s' ->
  frames_of fs t = ctx :: rest ->
  held (lock s') = held (lock s) -> id (lock s') = id (lock s) ->
  (forall t0, pc_of s' t0 = pc_of s t0) ->
  depth_of (id (lock s)) ctx' = Z.of_nat (S (S (length rest))) ->
  Z.of_nat (S (S (length rest))) <= max_int ->
  cinv (s', <[t := ctx' :: ctx :: rest]> fs).
Proof.
  intros (Hsys & Hsec & Hmutex & Hzero) Hsys' Hfs Hheld Hid Hpcs Hd Hmax.
  assert (Ht : in_section fs t) by (unfold in_section; by rewrite Hfs).
  assert (Hin : forall t0, in_section (<[t := ctx' :: ctx :: rest]> fs) t0 ->
                           in_section fs t0).
  { intros t0. unfold in_section. rewrite frames_of_insert.
    case_decide; [by subst|done]. }
  split; [done|]. split; [|split].
  - intros t0 Ht0. destruct (Hsec t0 (Hin t0 Ht0)) as (Hh & Hp & Hf).
    rewrite Hheld, Hid, Hpcs. split; [done|]. split; [done|].
    rewrite frames_of_insert. case_decide; [subst t0|done].
    rewrite Hfs in Hf. simpl in *. done.
  - intros t1 t2 Ht1 Ht2. apply Hin in Ht1, Ht2. by apply Hmutex.
  - intros t0. rewrite Hpcs. apply Hzero.
Qed.

(** The end of a frame: the lock stays held unless it was the last one. *)
Lemma cinv_close s s' fs t ctx rest :
  cinv (s, fs) -> sys_inv s' ->
  frames_of fs t = ctx :: rest ->
  (rest <> [] -> held (lock s') = true) -> id (lock s') = id (lock s) ->
  (forall t0, pc_of s' t0 = pc_of s t0) ->
  cinv (s', <[t := rest]> fs).
Proof.
  intros (Hsys & Hsec & Hmutex & Hzero) Hsys' Hfs Hheld Hid Hpcs.
  assert (Ht : in_section fs t) by (unfold in_section; by rewrite Hfs).
  assert (Hin : forall t0, in_section (<[t := rest]> fs) t0 ->
                           in_section fs t0 /\ (t0 = t -> rest <> [])).
  { intros t0. unfold in_section. rewrite frames_of_insert.
    case_decide; [by subst|]. intros ?. split; [done|congruence]. }
  split; [done|]. split; [|split].
  - intros t0 Ht0. destruct (Hin t0 Ht0) as [Hs Hrest].
    destruct (Hsec t0 Hs) as (Hh & Hp & Hf).
    rewrite Hid, Hpcs. split; [|split; [done|]].
    + apply Hheld, Hrest. by apply Hmutex.
    + rewrite frames_of_insert. case_decide; [subst t0|done].
      rewrite Hfs in Hf. simpl in Hf. by destruct Hf as (_ & _ & ?).
  - intros t1 t2 Ht1 Ht2. apply Hin in Ht1 as [? _], Ht2 as [? _].
    by apply Hmutex.
  - intros t0. rewrite Hpcs. apply Hzero.
Qed.

Lemma cstep_cinv x x' : cstep x x' -> cinv x -> cinv x'.
Proof.
  intros Hc Hinv. destruct Hc as [s l s' fs fs' Hstep Hfol].
  pose proof Hinv as (Hsys & Hsec & Hmutex & Hzero).
  pose proof (step_sys_inv _ _ _ Hstep Hsys) as Hsys'.
  pose proof Hsys as ([Hheld Hwf] & Hpc & Hsp & Huniq).
  destruct Hfol as [t ctx draws p Hfs Hd0 | t ctx rest draws p Hfs Hlen
                   | t p | t ctx rest r Hfs | t ctx r | t | t | n | n | ];
    inversion Hstep as [? ? ? ? ? c' Hidle HL | ? ? ? d werr c' Hsp0 HP
                       | ? ? ctx0 d werr ? c' Hw HR | ? ? ? ? c' Hidle HU
                       | ? ? ? ? c' Hidle HC | ? ? ? d e c' Hsp0 He HB
                       | ? ? ? d e c' Hw He HB | ? ? ? e c' Ho He HB | | ];
    subst.
  - (* Lock, outermost *)
    apply Lock_cases in HL as (Hm & Hid & Hst & _ & Hp).
    destruct p as [r|d'].
    + destruct Hp as (_ & -> & Hh). simpl in *.
      rewrite Hd0 in Hh. simpl in Hh. destruct Hh as [Hfree Hh].
      assert (Hz : forall t0, waits_at_zero (pc_of
                {| lock := c'; clock := clock s;
                   pcs := <[t:=Idle]> (pcs s); orphans := orphans s |} t0)).
      { intros t0. rewrite pc_of_insert. case_decide; [done|apply Hzero]. }
      destruct (ctx_Err ctx (clock s)); simpl.
      * apply (cinv_same_frames s); try done.
        intros t0 Ht0. apply Hsec in Ht0 as (? & _). congruence.
      * rewrite Hfs. apply (cinv_open s); try done.
        -- rewrite pc_of_insert. by case_decide.
        -- simpl. rewrite depth_of_WithValue, Hd0. reflexivity.
    + destruct Hp as (-> & _ & Hh & Hh' & _). simpl.
      apply (cinv_same_frames s); try done.
      * intros t0 Ht0 Hi. unfold pc_of; simpl. rewrite lookup_insert.
        case_decide; [|done]. subst t0. by destruct Ht0.
      * intros t0. unfold pc_of; simpl. rewrite lookup_insert.
        case_decide; [done|apply Hzero].
  - (* Lock, nested *)
    assert (Hin : in_section fs t) by (unfold in_section; by rewrite Hfs).
    destruct (Hsec t Hin) as (Hh & _ & Hf). rewrite Hfs in Hf.
    destruct Hf as (Hd & Hmax & Hf).
    apply Lock_cases in HL as (Hm & _ & Hst & _ & Hp).
    specialize (Hst (Hheld Hh)).
    assert (Hpcs : forall t0, pc_of
              {| lock := c'; clock := clock s;
                 pcs := <[t:=Idle]> (pcs s); orphans := orphans s |} t0 =
              pc_of s t0).
    { intros t0. rewrite pc_of_insert. case_decide; [by subst|done]. }
    rewrite Hst in Hp. simpl in Hlen.
    destruct p as [r|d']; [|destruct Hp as (_ & Hd0 & _); lia].
    destruct Hp as (_ & -> & Hh'). simpl in *.
    destruct (Z.eqb_spec (depth_of (id (lock s)) ctx) 0) as [|_]; [lia|].
    destruct (ctx_Err ctx (clock s)); simpl.
    + apply (cinv_same_frames s); [done|done|simpl; congruence|done| |].
      * intros t0 _ Hi. by rewrite Hpcs.
      * intros t0. rewrite Hpcs. apply Hzero.
    + rewrite Hfs. apply (cinv_nest s); try done.
      * rewrite depth_of_WithValue, Hd.
        rewrite int_wrap_small; unfold max_int in *; lia.
      * lia.
  - (* Lock, woken *)
    pose proof (Hzero t) as Hd. rewrite Hw in Hd. simpl in Hd. subst d.
    assert (Hfs : frames_of fs t = []).
    { destruct (frames_of fs t) eqn:Hfs; [done|].
      assert (Hin : in_section fs t) by (unfold in_section; by rewrite Hfs).
      apply Hsec in Hin as (_ & ? & _). congruence. }
    apply Lock_resume_cases in HR as (Hm & _ & Hid & _ & Hcase).
    assert (Hz : forall pc, waits_at_zero pc -> forall t0, waits_at_zero (pc_of
              {| lock := c'; clock := clock s; pcs := <[t:=pc]> (pcs s);
                 orphans := after_wait ctx0 werr (orphans s) |} t0)).
    { intros pc Hpc0 t0. rewrite pc_of_insert. case_decide; [done|apply Hzero]. }
    assert (Hi : forall pc t0, in_section fs t0 -> pc_of s t0 = Idle -> pc_of
              {| lock := c'; clock := clock s; pcs := <[t:=pc]> (pcs s);
                 orphans := after_wait ctx0 werr (orphans s) |} t0 = Idle).
    { intros pc t0 Hin Hi. rewrite pc_of_insert. case_decide; [|done].
      subst t0. by destruct Hin. }
    destruct werr as [e|].
    + destruct Hcase as [-> ->]. simpl.
      apply (cinv_same_frames s); [done|done|done|done|apply Hi|by apply Hz].
    + destruct p as [r|d']; simpl.
      * destruct Hcase as (Hfree & Hh & _ & ->).
        destruct (ctx_Err ctx0 (clock s)); simpl.
        -- apply (cinv_same_frames s);
             [done|done|done|simpl; congruence|apply Hi|by apply Hz].
        -- rewrite Hfs. apply (cinv_open s); [done|done|done|done| | |by apply Hz].
           ++ rewrite pc_of_insert. by case_decide.
           ++ simpl. rewrite Hid, depth_of_WithValue. reflexivity.
      * destruct Hcase as (-> & Hh & ->). simpl.
        apply (cinv_same_frames s); [done|done|done|done|apply Hi|by apply Hz].
  - (* Unlock *)
    assert (Hin : in_section fs t) by (unfold in_section; by rewrite Hfs).
    destruct (Hsec t Hin) as (Hh & _ & Hf). rewrite Hfs in Hf.
    destruct Hf as (Hd & Hmax & Hf).
    apply Unlock_cases in HU as (Hm & _ & Hid & _ & Hcase).
    destruct (Z.eqb_spec (id (lock s)) 0) as [Hz|_]; [by apply Hheld in Hh|].
    destruct (Z.eqb_spec (depth_of (id (lock s)) ctx) 0) as [|_]; [lia|].
    simpl in Hcase. destruct Hcase as (Hh' & _).
    apply (cinv_close s _ _ _ ctx); try done.
    intros Hrest. simpl. rewrite Hh', Hh.
    destruct (Z.eqb_spec (depth_of (id (lock s)) ctx) 1) as [H1|_]; [|done].
    destruct rest; [done|]. simpl in *. lia.
  - (* Clear *)
    apply Clear_cases in HC as (Hm & _ & Hid & Hh & _).
    apply (cinv_same_frames s); try done; simpl; congruence.
  - (* Park *)
    apply cond_Wait_park_cases in HP as (Hm & _ & Hid & Hh & _).
    pose proof (Hzero t) as Hd. rewrite Hsp0 in Hd.
    apply (cinv_same_frames s); try done; simpl; try congruence.
    + intros t0 Hin Hi. rewrite pc_of_insert. case_decide; [|done].
      subst t0. congruence.
    + intros t0. rewrite pc_of_insert. case_decide; [done|apply Hzero].
  - (* the watcher of a goroutine that has not called Wait yet *)
    apply cond_Broadcast_cases in HB as (Hm & Hid & Hh & _).
    pose proof (Hzero t) as Hd. rewrite Hsp0 in Hd.
    apply (cinv_same_frames s); try done; simpl; try congruence.
    + intros t0 Hin Hi. rewrite pc_of_insert. case_decide; [|done].
      subst t0. congruence.
    + intros t0. rewrite pc_of_insert. case_decide; [done|apply Hzero].
  - (* the watcher of a goroutine inside Wait *)
    apply cond_Broadcast_cases in HB as (Hm & Hid & Hh & _).
    pose proof (Hzero t) as Hd. rewrite Hw in Hd.
    apply (cinv_same_frames s); try done; simpl; try congruence.
    + intros t0 Hin Hi. rewrite pc_of_insert. case_decide; [|done].
      subst t0. congruence.
    + intros t0. rewrite pc_of_insert. case_decide; [done|apply Hzero].
  - (* a watcher left behind *)
    apply cond_Broadcast_cases in HB as (Hm & Hid & Hh & _).
    apply (cinv_same_frames s); try done; simpl; congruence.
  - by apply (cinv_same_frames s).
  - by apply (cinv_same_frames s).
Qed.

Lemma creachable_cinv x : creachable x -> cinv x.
Proof.
  unfold creachable. revert x. apply rtc_ind_r; [apply cinv_init|].
  intros x x' _ Hstep IH. by apply (cstep_cinv x).
Qed.

(** Only a segment of [Lock] takes [held] from false to true, and it
    starts by locking a mutex it found unlocked. *)
Lemma held_transition s l s' :
  step s l s' -> held (lock s) = false -> held (lock s') = true ->
  mu (lock s) = false /\
  ((exists t ctx draws p, l = LLock t ctx draws p) \/
   (exists t p, l = LResume t p)).
Proof.
  intros Hstep Hf Ht.
  inversion Hstep as [? ? ? ? ? c' Hidle HL | ? ? ? d werr c' Hsp0 HP
                     | ? ? ctx0 d werr ? c' Hw HR | ? ? ? ? c' Hidle HU
                     | ? ? ? ? c' Hidle HC | ? ? ? d e c' Hsp0 He HB
                     | ? ? ? d e c' Hw He HB | ? ? ? e c' Ho He HB | | ];
    subst; simpl in *.
  - apply Lock_cases in HL as (Hm & _). eauto 10.
  - apply cond_Wait_park_cases in HP as (_ & _ & _ & Hh & _). congruence.
  - apply Lock_resume_cases in HR as (Hm & _). eauto 10.
  - apply Unlock_cases in HU as (_ & _ & _ & _ & Hcase).
    destruct ((id (lock s) =? 0) ||
              (depth_of (id (lock s)) ctx =? 0) && negb (held (lock s))).
    + destruct Hcase as [_ ->]. congruence.
    + destruct Hcase as (Hh & _). rewrite Hh in Ht.
      destruct ((depth_of (id (lock s)) ctx =? 0) ||
                (depth_of (id (lock s)) ctx =? 1)); congruence.
  - apply Clear_cases in HC as (_ & _ & _ & Hh & _). congruence.
  - apply cond_Broadcast_cases in HB as (_ & _ & Hh & _). congruence.
  - apply cond_Broadcast_cases in HB as (_ & _ & Hh & _). congruence.
  - apply cond_Broadcast_cases in HB as (_ & _ & Hh & _). congruence.
  - congruence.
  - congruence.
Qed.

Lemma reachable_sys_one : reachable sys_one.
Proof.
  apply rtc_once.
  exists (LLock 0%nat Background [7] (Returned (Some ctx_one, None))).
  by apply (step_Lock init 0%nat Background [7]).
Qed.

Lemma creachable_one : creachable (sys_one, frames_one).
Proof.
  apply rtc_once.
  apply (cstep_intro init (LLock 0%nat Background [7] (Returned (Some ctx_one, None)))).
  - by apply (step_Lock init 0%nat Background [7]).
  - by apply follows_Lock_outer.
Qed.

(** Goroutine 0 holds the lock; goroutine 1 calls [Lock], waits, is woken
    by the [Unlock] of goroutine 0 and takes the lock. *)
Example handover :
  exists s fs,
    creachable (s, fs) /\
    held (lock s) = true /\ in_section fs 1%nat /\ ~ in_section fs 0%nat.
Proof.
  do 2 eexists. split.
  - eapply rtc_r; [eapply rtc_r; [eapply rtc_r; [eapply rtc_r;
      [apply creachable_one|]|]|]|].
    + eapply (cstep_intro _ (LLock 1%nat Background [] (AtWait 0))).
      * by eapply (step_Lock sys_one 1%nat Background []).
      * by apply follows_Lock_outer.
    + eapply (cstep_intro _ (LPark 1%nat)).
      * by eapply (step_Park _ 1%nat Background 0 None).
      * apply follows_Park.
    + eapply (cstep_intro _ (LUnlock 0%nat ctx_one _)).
      * by eapply (step_Unlock _ 0%nat ctx_one).
      * by eapply (follows_Unlock _ _ 0%nat ctx_one []).
    + eapply (cstep_intro _ (LResume 1%nat _)).
      * by eapply (step_Resume _ 1%nat Background 0 None).
      * apply follows_Resume.
  - simpl. split; [reflexivity|]. unfold in_section. split.
    + vm_compute. done.
    + vm_compute. intros H. by apply H.
Qed.

(** ** The lock, whatever the goroutines do *)

(** C10.  In every state reached from the zero value by calls of [Lock],
    [Unlock] and [Clear], made by any goroutines with any contexts: if the
    lock is held, its identifier is not zero and its condition variable
    exists; so [Unlock] and [Clear], which do not set the lock up, do not
    hit a nil condition variable. *)
Theorem held_is_set_up s :
  reachable s -> held (lock s) = true ->
  id (lock s) <> 0 /\ cond (lock s) <> None /\
  forall ctx,
    Unlock ctx (clock s) (lock s) <> Panic /\
    Clear ctx (clock s) (lock s) <> Panic.
Proof.
  intros Hr Hh. apply reachable_sys_inv in Hr as ([Hheld Hwf] & _).
  split; [by apply Hheld|]. split; [by apply Hwf, Hheld|].
  intros ctx. split; [by apply Unlock_no_panic|by apply Clear_no_panic].
Qed.

Lemma held_is_set_up_witness :
  id (lock sys_one) <> 0 /\ cond (lock sys_one) <> None /\
  forall ctx,
    Unlock ctx (clock sys_one) (lock sys_one) <> Panic /\
    Clear ctx (clock sys_one) (lock sys_one) <> Panic.
Proof. apply held_is_set_up; [apply reachable_sys_one | reflexivity]. Defined.

(** ** Mutual exclusion *)

(** C9.  Goroutines whose call paths start at depth 0 and follow the
    documented pattern share one lock.  In every state they reach:
    - at most one call path is between a successful [Lock] and the
      [Unlock] that matches it, and the lock is held while one is;
    - a step that takes [held] from false to true is a segment of [Lock]
      that found the mutex unlocked and locked it, while no other
      goroutine was in a section guarded by the mutex. *)
Theorem mutual_exclusion s fs :
  creachable (s, fs) ->
  (forall t1 t2, in_section fs t1 -> in_section fs t2 -> t1 = t2) /\
  (forall t, in_section fs t -> held (lock s) = true) /\
  (forall l s',
     step s l s' -> held (lock s) = false -> held (lock s') = true ->
     mu (lock s) = false /\
     (forall t ctx d w, pc_of s t <> Spawned ctx d w) /\
     ((exists t ctx draws p, l = LLock t ctx draws p) \/
      (exists t p, l = LResume t p))).
Proof.
  intros Hr. apply creachable_cinv in Hr as (Hsys & Hsec & Hmutex & _).
  split; [done|]. split; [intros t Ht; by destruct (Hsec t Ht)|].
  intros l s' Hstep Hf Ht.
  destruct (held_transition s l s' Hstep Hf Ht) as [Hm Hl].
  split; [done|]. split; [|done].
  intros t ctx d w Hpc. destruct Hsys as (_ & _ & Hsp & _).
  apply Hsp in Hpc. congruence.
Qed.

Lemma mutual_exclusion_witness :
  (forall t1 t2, in_section frames_one t1 -> in_section frames_one t2 -> t1 = t2) /\
  (forall t, in_section frames_one t -> held (lock sys_one) = true) /\
  (forall l s',
     step sys_one l s' -> held (lock sys_one) = false -> held (lock s') = true ->
     mu (lock sys_one) = false /\
     (forall t ctx d w, pc_of sys_one t <> Spawned ctx d w) /\
     ((exists t ctx draws p, l = LLock t ctx draws p) \/
      (exists t p, l = LResume t p))).
Proof. apply mutual_exclusion, creachable_one. Defined.

(** ** More about the methods *)

(** X1.  [Lock] on a lock that is not held never waits, cancelled context
    or not: it returns from its first segment.  The lock is held afterwards
    exactly if the context came at depth 0, and with a context that is not
    cancelled the returned context is one level deeper. *)
Theorem Lock_free_returns ctx now draws c :
  mu c = false -> wf c -> held c = false ->
  id c <> 0 \/ Exists (fun d => uint64 d <> 0) draws ->
  exists r c',
    Lock ctx now draws c = Ok (Returned r) c' /\
    held c' = (depth_of (id c') ctx =? 0) /\
    (ctx_Err ctx now = None ->
     exists ctx',
       r = (Some ctx', None) /\
       depth_of (id c') ctx' = int_wrap (depth_of (id c') ctx + 1)).
Proof.
  intros Hm Hwf Hh Hd.
  destruct (Lock_total ctx now draws c Hm Hwf Hd) as (p & c' & HL).
  pose proof (Lock_cases _ _ _ _ _ _ HL) as (_ & _ & _ & _ & Hp).
  destruct p as [r|d']; [|destruct Hp as (_ & _ & ? & _); congruence].
  exists r, c'. split; [done|]. destruct Hp as (_ & Hr & Hheld). split.
  - destruct (depth_of (id c') ctx =? 0); [by destruct Hheld|congruence].
  - intros He. rewrite He in Hr. eexists. split; [done|].
    apply depth_of_WithValue.
Qed.

Lemma Lock_free_returns_witness :
  exists r c',
    Lock Background 3 [0; 7] zero = Ok (Returned r) c' /\
    held c' = (depth_of (id c') Background =? 0) /\
    (ctx_Err Background 3 = None ->
     exists ctx',
       r = (Some ctx', None) /\
       depth_of (id c') ctx' = int_wrap (depth_of (id c') Background + 1)).
Proof.
  apply Lock_free_returns; [reflexivity | intros H; by destruct H | reflexivity |].
  right. apply Exists_cons_tl, Exists_cons_hd. discriminate.
Defined.

(** X2.  [Lock] called at depth 0 on a held lock waits, even with a context
    that is already cancelled: its first segment changes nothing and stops
    at [c.cond.Wait()], which puts the goroutine last on the notify list
    and unlocks the mutex; until it is notified the goroutine cannot go
    on, whatever its watcher has written to [err]. *)
Theorem Lock_held_waits me ctx now now' draws werr c ws :
  mu c = false -> id c <> 0 -> held c = true -> cond c = Some ws ->
  depth_of (id c) ctx = 0 ->
  Lock ctx now draws c = Ok (AtWait 0) (with_mu true c) /\
  cond_Wait_park me (with_mu true c) = Ok tt (with_cond (Some (ws ++ [me])) c) /\
  Lock_resume me ctx now' 0 werr (with_cond (Some (ws ++ [me])) c) = Block.
Proof.
  destruct c as [w h m i]; simpl. intros -> Hi -> -> Hd.
  repeat split.
  - unfold_lock; cbn. destruct (Z.eqb_spec i 0); [done|]. cbn.
    rewrite Hd. done.
  - unfold_lock; cbn.
    rewrite bool_decide_eq_true_2; [done|]. set_solver.
Qed.

Lemma Lock_held_waits_witness :
  Lock cancelled 0 [] busy = Ok (AtWait 0) (with_mu true busy) /\
  cond_Wait_park 3%nat (with_mu true busy) =
    Ok tt (with_cond (Some ([1; 2] ++ [3])%nat) busy) /\
  Lock_resume 3%nat cancelled 9 0 (Some Canceled)
    (with_cond (Some ([1; 2] ++ [3])%nat) busy) = Block.
Proof.
  apply (Lock_held_waits 3%nat cancelled 0%nat 9%nat [] (Some Canceled) busy);
    [reflexivity | discriminate | reflexivity | reflexivity | reflexivity].
Defined.

(** X3.  [Lock] followed by [Unlock] of the context it returned undoes
    itself: on a lock that is set up, with a context that is not cancelled
    and comes at a depth [d] from 0 (the lock then not held) to below the
    largest [int], the context [Unlock] returns is at depth [d] again and
    the lock is as it was before (held and identifier), but that at depth 0
    the release has signalled the goroutine that waited longest. *)
Theorem Lock_Unlock_round_trip ctx now now' draws c ws :
  mu c = false -> id c <> 0 -> cond c = Some ws ->
  0 <= depth_of (id c) ctx < max_int ->
  (depth_of (id c) ctx = 0 -> held c = false) ->
  ctx_Err ctx now = None -> ctx_Err ctx now' = None ->
  exists ctx1 c1 ctx2,
    Lock ctx now draws c = Ok (Returned (Some ctx1, None)) c1 /\
    depth_of (id c) ctx1 = depth_of (id c) ctx + 1 /\
    Unlock ctx1 now' c1 =
      Ok (Some ctx2, None)
         (if depth_of (id c) ctx =? 0 then with_cond (Some (tail ws)) c else c) /\
    depth_of (id c) ctx2 = depth_of (id c) ctx.
Proof.
  destruct c as [w h m i]; simpl. intros -> Hi -> Hd Hh He He'.
  assert (Hw : int_wrap (depth_of i ctx + 1) = depth_of i ctx + 1).
  { apply int_wrap_small. unfold max_int in *. lia. }
  exists (WithValue ctx (LockKey i) (IntVal (depth_of i ctx + 1))).
  destruct (Z.eqb_spec (depth_of i ctx) 0) as [Hz|Hz].
  - rewrite (Hh Hz). eexists.
    exists (WithValue (WithValue ctx (LockKey i) (IntVal (depth_of i ctx + 1)))
              (LockKey i) (IntVal (depth_of i ctx + 1 - 1))).
    split; [|split; [|split]].
    + unfold_lock; cbn. destruct (Z.eqb_spec i 0); [done|]. cbn.
      rewrite Hz, He. cbn. reflexivity.
    + apply depth_of_WithValue.
    + unfold_lock; cbn. destruct (Z.eqb_spec i 0); [done|]. cbn.
      rewrite depth_of_WithValue.
      destruct (Z.eqb_spec (depth_of i ctx + 1) 0); [lia|].
      destruct (Z.eqb_spec (depth_of i ctx + 1) 1); [|lia]. cbn.
      destruct (Z.ltb_spec 0 (depth_of i ctx + 1)); [|lia].
      rewrite ctx_Err_WithValue, He'. cbn. reflexivity.
    + rewrite depth_of_WithValue. lia.
  - eexists.
    exists (WithValue (WithValue ctx (LockKey i) (IntVal (depth_of i ctx + 1)))
              (LockKey i) (IntVal (depth_of i ctx + 1 - 1))).
    split; [|split; [|split]].
    + unfold_lock; cbn. destruct (Z.eqb_spec i 0); [done|]. cbn.
      destruct (Z.eqb_spec (depth_of i ctx) 0); [done|].
      rewrite He, Hw. cbn. reflexivity.
    + apply depth_of_WithValue.
    + unfold_lock; cbn. destruct (Z.eqb_spec i 0); [done|]. cbn.
      rewrite depth_of_WithValue.
      destruct (Z.eqb_spec (depth_of i ctx + 1) 0); [lia|].
      destruct (Z.eqb_spec (depth_of i ctx + 1) 1); [lia|]. cbn.
      destruct (Z.ltb_spec 0 (depth_of i ctx + 1)); [|lia].
      rewrite ctx_Err_WithValue, He'. cbn. reflexivity.
    + rewrite depth_of_WithValue. lia.
Qed.

Lemma Lock_Unlock_round_trip_witness :
  let c := {| cond := Some [1; 2]%nat; held := false; mu := false; id := 7 |} in
  exists ctx1 c1 ctx2,
    Lock Background 0 [] c = Ok (Returned (Some ctx1, None)) c1 /\
    depth_of 7 ctx1 = depth_of 7 Background + 1 /\
    Unlock ctx1 4 c1 =
      Ok (Some ctx2, None)
         (if depth_of 7 Background =? 0 then with_cond (Some (tail [1; 2]%nat)) c
          else c) /\
    depth_of 7 ctx2 = depth_of 7 Background.
Proof.
  apply (Lock_Unlock_round_trip Background 0%nat 4%nat []
           {| cond := Some [1; 2]%nat; held := false; mu := false; id := 7 |}
           [1; 2]%nat); try reflexivity; try discriminate.
  split; [discriminate | reflexivity].
Defined.

(** X4.  A context returned by [Lock], [Unlock] or [Clear] differs from
    the context passed in at most in the depth of this lock: every other
    key has the value it had, and the cancellation is the same. *)
Theorem returned_context_keeps_values ctx now ctx' e c c' :
  (exists draws, Lock ctx now draws c = Ok (Returned (Some ctx', e)) c') \/
  (exists me d werr,
     Lock_resume me ctx now d werr c = Ok (Returned (Some ctx', e)) c') \/
  Unlock ctx now c = Ok (Some ctx', e) c' \/
  Clear ctx now c = Ok (Some ctx', e) c' ->
  (forall k, k <> LockKey (id c') -> ctx_Value ctx' k = ctx_Value ctx k) /\
  (forall t, ctx_Err ctx' t = ctx_Err ctx t).
Proof.
  assert (Hwv : forall i v,
            (forall k, k <> LockKey i ->
                       ctx_Value (WithValue ctx (LockKey i) v) k = ctx_Value ctx k) /\
            (forall t, ctx_Err (WithValue ctx (LockKey i) v) t = ctx_Err ctx t)).
  { intros i v. split; [|done]. intros k Hk. by apply ctx_Value_WithValue_ne. }
  intros [[draws H] | [(me & d & werr & H) | [H | H]]].
  - apply Lock_cases in H as (_ & _ & _ & _ & _ & Hr & _).
    destruct (ctx_Err ctx now); simplify_eq. apply Hwv.
  - apply Lock_resume_cases in H as (_ & _ & Hid & _ & Hcase).
    destruct werr; [destruct Hcase as [Hp _]; by simplify_eq|].
    destruct Hcase as (_ & _ & _ & Hr).
    destruct (ctx_Err ctx now); simplify_eq. rewrite Hid. apply Hwv.
  - apply Unlock_cases in H as (_ & _ & Hid & _ & Hcase).
    destruct ((id c =? 0) || (depth_of (id c) ctx =? 0) && negb (held c)).
    + destruct Hcase as [Hr _]. by simplify_eq.
    + destruct Hcase as (_ & _ & Hr).
      destruct (ctx_Err ctx now); simplify_eq. rewrite Hid. apply Hwv.
  - apply Clear_cases in H as (_ & _ & Hid & _ & _ & Hcase).
    destruct (held c).
    + destruct Hcase as [Hr _].
      destruct (ctx_Err ctx now); simplify_eq. rewrite Hid. apply Hwv.
    + destruct Hcase as [Hr _]. by simplify_eq.
Qed.

Lemma returned_context_keeps_values_witness :
  (forall k, k <> LockKey (id busy) ->
             ctx_Value (WithValue (at_depth 3) (LockKey 7) (IntVal 0)) k =
             ctx_Value (at_depth 3) k) /\
  (forall t, ctx_Err (WithValue (at_depth 3) (LockKey 7) (IntVal 0)) t =
             ctx_Err (at_depth 3) t).
Proof.
  apply (returned_context_keeps_values (at_depth 3) 0%nat _ None busy busy).
  right; right; right. reflexivity.
Defined.

(** ** More about the goroutines *)

Lemma Lock_notify ctx now draws c p c' ws' :
  Lock ctx now draws c = Ok p c' -> cond c' = Some ws' ->
  ws' = [] \/ cond c = Some ws'.
Proof.
  intros H. unfold Lock in H.
  apply bind_Ok in H as ([] & c1 & Hmu & H).
  unfold mu_Lock in Hmu. destruct (mu c) eqn:Hm; [done|]. simplify_eq.
  apply bind_Ok in H as (i & c1 & Hi & H). unfold gets in Hi. simplify_eq.
  apply bind_Ok in H as ([] & c2 & Hs & H).
  assert (Hc2 : cond c2 = cond c \/ cond c2 = Some []).
  { simpl in Hs. destruct (id c =? 0).
    - apply _setup_Ok in Hs as (_ & _ & _ & Hc & _). simpl in Hc.
      rewrite Hc. destruct (cond c); auto.
    - unfold ret in Hs. simplify_eq. auto. }
  clear Hs. destruct c2 as [w2 h2 m2 i2]; simpl in *.
  run_cases H; intros Hw; simplify_eq; destruct Hc2; simplify_eq; auto.
Qed.

Lemma Lock_resume_notify me ctx now d werr c p c' ws' :
  Lock_resume me ctx now d werr c = Ok p c' -> cond c' = Some ws' ->
  ws' = [] \/ cond c = Some ws'.
Proof.
  destruct c as [w h m i]. intros H.
  run_cases H; intros Hw; simplify_eq; auto.
Qed.

Lemma Unlock_notify ctx now c r c' ws' :
  Unlock ctx now c = Ok r c' -> cond c' = Some ws' ->
  ws' = [] \/ cond c = Some ws' \/ exists ws, cond c = Some ws /\ ws' = tail ws.
Proof.
  destruct c as [w h m i]. intros H.
  run_cases H; intros Hw; simplify_eq; eauto.
Qed.

Lemma Clear_notify ctx now c r c' ws' :
  Clear ctx now c = Ok r c' -> cond c' = Some ws' ->
  ws' = [] \/ cond c = Some ws'.
Proof.
  destruct c as [w h m i]. intros H.
  run_cases H; intros Hw; simplify_eq; auto.
Qed.

Lemma step_mu_inv s l s' : step s l s' -> mu_inv s -> mu_inv s'.
Proof.
  intros Hstep Hinv.
  assert (Hkeep : forall t pc cc n o,
            (forall ctx d w, pc_of s t = Spawned ctx d w ->
                             exists ctx' d' w', pc = Spawned ctx' d' w') ->
            mu cc = mu (lock s) ->
            mu_inv {| lock := cc; clock := n; pcs := <[t := pc]> (pcs s);
                      orphans := o |}).
  { intros t pc cc n o Hpc Hm Hmu. unfold mu_inv in *. simpl in *.
    rewrite Hm in Hmu. destruct (Hinv Hmu) as (t0 & ctx & d & w & Ht0).
    destruct (decide (t = t0)) as [->|Hne].
    - destruct (Hpc _ _ _ Ht0) as (ctx' & d' & w' & ->).
      exists t0, ctx', d', w'. rewrite pc_of_insert. by case_decide.
    - exists t0, ctx, d, w. rewrite pc_of_insert. by case_decide. }
  inversion Hstep as [? t ctx draws p c' Hidle HL | ? t ctx d werr c' Hsp0 HP
                     | ? t ctx0 d werr p c' Hw HR | ? ? ? ? c' Hidle HU
                     | ? ? ? ? c' Hidle HC | ? t ctx d e c' Hsp0 He HB
                     | ? t ctx d e c' Hw He HB | ? ? ? e c' Ho He HB | | ];
    subst.
  - apply Lock_cases in HL as (_ & _ & _ & _ & Hp).
    intros Hmu. destruct p as [r|d']; simpl in *.
    + destruct Hp as (? & _). congruence.
    + exists t, ctx, d', None. rewrite pc_of_insert. by case_decide.
  - apply cond_Wait_park_cases in HP as (_ & Hm' & _).
    intros Hmu. simpl in *. congruence.
  - apply Lock_resume_cases in HR as (Hm & _ & _ & _ & Hcase).
    intros Hmu. simpl in *. destruct werr as [e|].
    + destruct Hcase as [_ ->]. congruence.
    + destruct p as [r|d']; simpl in *.
      * destruct Hcase as (_ & _ & ? & _). congruence.
      * exists t, ctx0, d', None. rewrite pc_of_insert. by case_decide.
  - apply Unlock_cases in HU as (_ & Hm' & _). intros Hmu. simpl in *. congruence.
  - apply Clear_cases in HC as (_ & Hm' & _). intros Hmu. simpl in *. congruence.
  - apply cond_Broadcast_cases in HB as (Hm & _).
    apply Hkeep; [|done]. intros ctx' d' w' Hpc. eauto.
  - apply cond_Broadcast_cases in HB as (Hm & _).
    apply Hkeep; [|done]. intros ctx' d' w' Hpc. congruence.
  - apply cond_Broadcast_cases in HB as (Hm & _).
    intros Hmu. simpl in *. rewrite Hm in Hmu. by apply Hinv.
  - done.
  - done.
Qed.

Lemma step_notify_inv s l s' : step s l s' -> notify_inv s -> notify_inv s'.
Proof.
  intros Hstep Hinv.
  (* the goroutine that moves is not on the list, which does not grow *)
  assert (Hsub : forall t pc cc n o,
            (forall ws, cond (lock s) = Some ws -> t ∉ ws) ->
            (forall ws', cond cc = Some ws' ->
               ws' = [] \/ cond (lock s) = Some ws' \/
               exists ws, cond (lock s) = Some ws /\ ws' = tail ws) ->
            notify_inv {| lock := cc; clock := n; pcs := <[t := pc]> (pcs s);
                          orphans := o |}).
  { intros t pc cc n o Hnot Hcc ws' Hws'. simpl in *.
    assert (Hold : forall ws, cond (lock s) = Some ws -> forall t0, t0 ∈ ws ->
              exists ctx d w,
                pc_of {| lock := cc; clock := n; pcs := <[t := pc]> (pcs s);
                         orphans := o |} t0 = Waiting ctx d w).
    { intros ws Hws t0 Ht0. rewrite pc_of_insert.
      case_decide; [subst; by destruct (Hnot ws Hws)|].
      by apply (Hinv ws Hws). }
    destruct (Hcc ws' Hws') as [-> | [Hc | (ws & Hc & ->)]].
    - split; [constructor|]. intros t0 Ht0. by apply elem_of_nil in Ht0.
    - split; [by apply Hinv|]. by apply Hold.
    - destruct (Hinv ws Hc) as [Hnd _]. split.
      + destruct ws; [done|]. by inversion Hnd.
      + intros t0 Ht0. apply (Hold ws Hc).
        destruct ws; [done|]. simpl in Ht0. set_solver. }
  (* a goroutine that is not inside Wait is not on the list *)
  assert (Hout : forall t, (forall ctx d w, pc_of s t <> Waiting ctx d w) ->
            forall ws, cond (lock s) = Some ws -> t ∉ ws).
  { intros t Hpc ws Hws Ht. destruct (Hinv ws Hws) as [_ Hm].
    destruct (Hm t Ht) as (ctx & d & w & Hw). by destruct (Hpc ctx d w). }
  assert (Hsame : forall cc n o,
            (forall ws', cond cc = Some ws' ->
               ws' = [] \/ cond (lock s) = Some ws' \/
               exists ws, cond (lock s) = Some ws /\ ws' = tail ws) ->
            notify_inv {| lock := cc; clock := n; pcs := pcs s; orphans := o |}).
  { intros cc n o Hcc ws' Hws'. simpl in *.
    destruct (Hcc ws' Hws') as [-> | [Hc | (ws & Hc & ->)]].
    - split; [constructor|]. intros t0 Ht0. by apply elem_of_nil in Ht0.
    - by apply Hinv.
    - destruct (Hinv ws Hc) as [Hnd Hm]. split.
      + destruct ws; [done|]. by inversion Hnd.
      + intros t0 Ht0. apply Hm. destruct ws; [done|]. simpl in Ht0. set_solver. }
  inversion Hstep as [? t ctx draws p c' Hidle HL | ? t ctx d werr c' Hsp0 HP
                     | ? t ctx0 d werr p c' Hw HR | ? ? ? ? c' Hidle HU
                     | ? ? ? ? c' Hidle HC | ? t ctx d e c' Hsp0 He HB
                     | ? t ctx d e c' Hw He HB | ? ? ? e c' Ho He HB | | ];
    subst.
  - assert (Hn : forall ws' : list tid, cond c' = Some ws' ->
              ws' = [] \/ cond (lock s) = Some ws' \/
              exists ws, cond (lock s) = Some ws /\ ws' = tail ws).
    { intros ws' Hws'. destruct (Lock_notify _ _ _ _ _ _ _ HL Hws'); auto. }
    destruct p; simpl; (apply Hsub; [|done]); apply Hout; congruence.
  - apply cond_Wait_park_cases in HP as (_ & _ & _ & _ & ws & Hws & Hws').
    intros ws' Hc. simpl in *. rewrite Hws' in Hc. simplify_eq.
    destruct (Hinv ws Hws) as [Hnd Hm].
    assert (Ht : t ∉ ws) by (apply (Hout t); [congruence|done]).
    split.
    + apply NoDup_app. split; [done|]. split; [|apply NoDup_singleton].
      intros x Hx Hx'. apply list_elem_of_singleton in Hx'. by subst.
    + intros t0 Ht0. rewrite pc_of_insert. case_decide; [eauto|].
      apply Hm. apply elem_of_app in Ht0 as [?|Ht0]; [done|].
      apply list_elem_of_singleton in Ht0. congruence.
  - assert (Hn : forall ws' : list tid, cond c' = Some ws' ->
              ws' = [] \/ cond (lock s) = Some ws' \/
              exists ws, cond (lock s) = Some ws /\ ws' = tail ws).
    { intros ws' Hws'. destruct (Lock_resume_notify _ _ _ _ _ _ _ _ _ HR Hws'); auto. }
    apply Lock_resume_cases in HR as (_ & Hpk & _).
    assert (Ht : forall ws, cond (lock s) = Some ws -> t ∉ ws).
    { intros ws Hws Ht. unfold parked in Hpk. rewrite Hws in Hpk.
      by apply bool_decide_eq_false in Hpk. }
    destruct p; simpl; by apply Hsub.
  - apply Hsame. intros ws' Hws'. by apply (Unlock_notify _ _ _ _ _ _ HU).
  - apply Hsame. intros ws' Hws'.
    destruct (Clear_notify _ _ _ _ _ _ HC Hws'); auto.
  - apply cond_Broadcast_cases in HB as (_ & _ & _ & Hc).
    apply Hsub; [apply Hout; congruence|].
    intros ws' Hws'. rewrite Hc in Hws'. simplify_eq. auto.
  - apply cond_Broadcast_cases in HB as (_ & _ & _ & Hc).
    intros ws' Hws'. simpl in *. rewrite Hc in Hws'. simplify_eq.
    split; [constructor|]. intros t0 Ht0. by apply elem_of_nil in Ht0.
  - apply cond_Broadcast_cases in HB as (_ & _ & _ & Hc).
    apply Hsame. intros ws' Hws'. rewrite Hc in Hws'. simplify_eq. auto.
  - apply Hsame. auto.
  - apply Hsame. auto.
Qed.

Lemma reachable_mu_notify s : reachable s -> mu_inv s /\ notify_inv s.
Proof.
  unfold reachable. revert s. apply rtc_ind_r.
  - split; [done|]. intros ws Hws. done.
  - intros s s' _ [l Hl] [Hm Hn].
    split; [by apply (step_mu_inv s l)|by apply (step_notify_inv s l)].
Qed.

Lemma reachable_sys_two : reachable sys_two.
Proof.
  eapply rtc_r; [apply reachable_sys_one|].
  exists (LLock 1%nat cancelled [] (AtWait 0)).
  by apply (step_Lock sys_one 1%nat cancelled []).
Qed.

(** X5.  No method leaves the mutex locked behind it: in every state the
    goroutines reach, [c.mu] is locked exactly while a goroutine stands
    between the start of its watcher and [c.cond.Wait()], and there is at
    most one such goroutine. *)
Theorem mutex_locked_only_before_wait s :
  reachable s ->
  (mu (lock s) = true <-> exists t ctx d w, pc_of s t = Spawned ctx d w) /\
  (forall t1 t2 ctx1 d1 w1 ctx2 d2 w2,
     pc_of s t1 = Spawned ctx1 d1 w1 -> pc_of s t2 = Spawned ctx2 d2 w2 ->
     t1 = t2).
Proof.
  intros Hr. pose proof (reachable_sys_inv s Hr) as (_ & _ & Hsp & Huniq).
  apply reachable_mu_notify in Hr as [Hmu _].
  split; [|done]. split; [done|].
  intros (t & ctx & d & w & Ht). by apply (Hsp t ctx d w).
Qed.

Lemma mutex_locked_only_before_wait_witness :
  (mu (lock sys_two) = true <->
   exists t ctx d w, pc_of sys_two t = Spawned ctx d w) /\
  (forall t1 t2 ctx1 d1 w1 ctx2 d2 w2,
     pc_of sys_two t1 = Spawned ctx1 d1 w1 ->
     pc_of sys_two t2 = Spawned ctx2 d2 w2 ->
     t1 = t2).
Proof. apply mutex_locked_only_before_wait, reachable_sys_two. Defined.

(** X6.  In every state the goroutines reach, the notify list of the
    condition variable holds no goroutine twice and only goroutines that
    are inside [c.cond.Wait()]: a goroutine that is outside of [Lock], or
    has returned from it, is not registered as a waiter. *)
Theorem notify_list_holds_waiters s ws :
  reachable s -> cond (lock s) = Some ws ->
  NoDup ws /\
  (forall t, t ∈ ws -> exists ctx d w, pc_of s t = Waiting ctx d w) /\
  (forall t, pc_of s t = Idle -> parked t (lock s) = false).
Proof.
  intros Hr Hws. apply reachable_mu_notify in Hr as [_ Hn].
  destruct (Hn ws Hws) as [Hnd Hm]. split; [done|]. split; [done|].
  intros t Ht. unfold parked. rewrite Hws. apply bool_decide_eq_false.
  intros Hin. destruct (Hm t Hin) as (ctx & d & w & Hw). congruence.
Qed.

Lemma notify_list_holds_waiters_witness :
  NoDup (@nil tid) /\
  (forall t, t ∈ @nil tid -> exists ctx d w, pc_of sys_two t = Waiting ctx d w) /\
  (forall t, pc_of sys_two t = Idle -> parked t (lock sys_two) = false).
Proof.
  apply notify_list_holds_waiters; [apply reachable_sys_two | reflexivity].
Defined.

(** X7.  The release hands the lock over: [Unlock] at depth 1 on a held
    lock, with a context that is not cancelled, takes the first goroutine
    off the notify list; that goroutine, woken, takes the lock and returns
    a context at depth 1, while every other waiter stays blocked, before
    and after. *)
Theorem Unlock_hands_over t ws ctx ctx_t now now' c :
  mu c = false -> id c <> 0 -> held c = true ->
  cond c = Some (t :: ws) -> NoDup (t :: ws) ->
  depth_of (id c) ctx = 1 ->
  ctx_Err ctx now = None -> ctx_Err ctx_t now' = None ->
  exists r ctx',
    Unlock ctx now c = Ok r (with_held false (with_cond (Some ws) c)) /\
    Lock_resume t ctx_t now' 0 None (with_held false (with_cond (Some ws) c)) =
      Ok (Returned (Some ctx', None)) (with_cond (Some ws) c) /\
    depth_of (id c) ctx' = 1 /\
    forall t' ctx'' n d w, t' ∈ ws ->
      Lock_resume t' ctx'' n d w (with_held false (with_cond (Some ws) c)) = Block /\
      Lock_resume t' ctx'' n d w (with_cond (Some ws) c) = Block.
Proof.
  destruct c as [w h m i]; simpl. intros -> Hi -> -> Hnd Hd He He'.
  inversion Hnd as [|? ? Hnot _]; subst.
  eexists. exists (WithValue ctx_t (LockKey i) (IntVal (int_wrap (0 + 1)))).
  split; [|split; [|split]].
  - unfold_lock; cbn. destruct (Z.eqb_spec i 0); [done|]. cbn.
    rewrite Hd. cbn. rewrite He. cbn. reflexivity.
  - unfold_lock; cbn. rewrite bool_decide_eq_false_2 by done. cbn.
    rewrite He'. reflexivity.
  - rewrite depth_of_WithValue. reflexivity.
  - intros t' ctx'' n d w' Ht'. unfold_lock; cbn.
    rewrite bool_decide_eq_true_2 by done. done.
Qed.

Lemma Unlock_hands_over_witness :
  exists r ctx',
    Unlock (at_depth 1) 0 busy = Ok r (with_held false (with_cond (Some [2%nat]) busy)) /\
    Lock_resume 1%nat Background 5 0 None
        (with_held false (with_cond (Some [2%nat]) busy)) =
      Ok (Returned (Some ctx', None)) (with_cond (Some [2%nat]) busy) /\
    depth_of 7 ctx' = 1 /\
    forall t' ctx'' n d w, t' ∈ [2%nat] ->
      Lock_resume t' ctx'' n d w
        (with_held false (with_cond (Some [2%nat]) busy)) = Block /\
      Lock_resume t' ctx'' n d w (with_cond (Some [2%nat]) busy) = Block.
Proof.
  apply (Unlock_hands_over 1%nat [2%nat] (at_depth 1) Background 0%nat 5%nat busy);
    try reflexivity; try discriminate.
  apply NoDup_cons. split; [|apply NoDup_singleton].
  intros H. apply list_elem_of_singleton in H. discriminate.
Defined.

(** X8.  A cancellation seen while the goroutine is inside
    [c.cond.Wait()] gets it out: the watcher writes the error and
    broadcasts, and the goroutine, once it has the mutex, returns the
    context it was given and the error, leaving the lock as it was but for
    the emptied notify list. *)
Theorem cancel_wakes_waiter s t ctx d e ws :
  pc_of s t = Waiting ctx d None ->
  ctx_Err ctx (clock s) = Some e ->
  cond (lock s) = Some ws -> mu (lock s) = false ->
  exists s1 s2,
    step s (LWatch t) s1 /\
    step s1 (LResume t (Returned (Some ctx, Some e))) s2 /\
    lock s2 = with_cond (Some []) (lock s) /\
    pc_of s2 t = Idle.
Proof.
  intros Hpc He Hws Hm.
  set (c1 := with_cond (Some []) (lock s)).
  set (s1 := {| lock := c1; clock := clock s;
                pcs := <[t := Waiting ctx d (Some e)]> (pcs s);
                orphans := orphans s |}).
  assert (HR : Lock_resume t ctx (clock s) d (Some e) c1 =
               Ok (Returned (Some ctx, Some e)) c1).
  { unfold c1. destruct (lock s) as [w h m i]; simpl in *. subst.
    unfold_lock; cbn. reflexivity. }
  exists s1. eexists. split; [|split; [|split]].
  - apply (step_Watch_waiting s t ctx d e c1); [done|done|].
    unfold cond_Broadcast. by rewrite Hws.
  - eapply (step_Resume s1 t ctx d (Some e)); [|exact HR].
    unfold s1. rewrite pc_of_insert. by case_decide.
  - done.
  - simpl. rewrite pc_of_insert. by case_decide.
Qed.

Lemma cancel_wakes_waiter_witness :
  let s := {| lock := with_cond (Some [1%nat]) (lock sys_one); clock := 0%nat;
              pcs := <[1%nat := Waiting cancelled 0 None]> (pcs sys_one);
              orphans := [] |} in
  exists s1 s2,
    step s (LWatch 1%nat) s1 /\
    step s1 (LResume 1%nat (Returned (Some cancelled, Some Canceled))) s2 /\
    lock s2 = with_cond (Some []) (lock s) /\
    pc_of s2 1%nat = Idle.
Proof.
  apply (cancel_wakes_waiter _ 1%nat cancelled 0 Canceled [1%nat]); reflexivity.
Defined.

(** X9.  A cancellation seen before the goroutine has entered
    [c.cond.Wait()] does not get it out.  If the watcher runs first, its
    broadcast finds the notify list without the goroutine; the goroutine
    then joins the list and, although its [err] holds the error, neither it
    nor its watcher can take a step: it waits for a signal or broadcast of
    another goroutine. *)
Theorem watcher_before_wait s t ctx d e :
  reachable s ->
  pc_of s t = Spawned ctx d None ->
  ctx_Err ctx (clock s) = Some e ->
  exists s1 s2,
    step s (LWatch t) s1 /\
    step s1 (LPark t) s2 /\
    pc_of s2 t = Waiting ctx d (Some e) /\
    cond (lock s2) = Some [t] /\
    forall l s3, step s2 l s3 -> l <> LWatch t /\ forall p, l <> LResume t p.
Proof.
  intros Hr Hpc He.
  pose proof (reachable_sys_inv s Hr) as ([_ Hwf] & Hid & Hsp & _).
  assert (Hm : mu (lock s) = true) by (by apply (Hsp t ctx d None)).
  assert (exists ws, cond (lock s) = Some ws) as [ws Hws].
  { destruct (cond (lock s)) eqn:Hc; [eauto|].
    destruct Hwf; [|done]. apply (Hid t). congruence. }
  set (s1 := {| lock := with_cond (Some []) (lock s); clock := clock s;
                pcs := <[t := Spawned ctx d (Some e)]> (pcs s);
                orphans := orphans s |}).
  set (s2 := {| lock := with_mu false (with_cond (Some [t]) (lock s));
                clock := clock s;
                pcs := <[t := Waiting ctx d (Some e)]> (pcs s1);
                orphans := orphans s |}).
  exists s1, s2. split; [|split; [|split; [|split]]].
  - apply (step_Watch_spawned s t ctx d e); [done|done|].
    unfold cond_Broadcast. by rewrite Hws.
  - apply (step_Park s1 t ctx d (Some e)).
    + unfold s1. rewrite pc_of_insert. by case_decide.
    + unfold s1; simpl. destruct (lock s) as [w h m i]; simpl in *. by subst.
  - unfold s2. rewrite pc_of_insert. by case_decide.
  - done.
  - assert (Hpc2 : pc_of s2 t = Waiting ctx d (Some e)).
    { unfold s2. rewrite pc_of_insert. by case_decide. }
    intros l s3 Hstep. split.
    + intros ->. inversion Hstep; subst; congruence.
    + intros p ->. inversion Hstep as [| |? ? ? ? ? ? ? Hw HR| | | | | | |]; subst.
      apply Lock_resume_cases in HR as (_ & Hpk & _).
      unfold parked, s2 in Hpk. simpl in Hpk.
      rewrite bool_decide_eq_true_2 in Hpk; [done|]. by apply list_elem_of_singleton.
Qed.

Lemma watcher_before_wait_witness :
  exists s1 s2,
    step sys_two (LWatch 1%nat) s1 /\
    step s1 (LPark 1%nat) s2 /\
    pc_of s2 1%nat = Waiting cancelled 0 (Some Canceled) /\
    cond (lock s2) = Some [1%nat] /\
    forall l s3, step s2 l s3 -> l <> LWatch 1%nat /\ forall p, l <> LResume 1%nat p.
Proof.
  apply (watcher_before_wait sys_two 1%nat cancelled 0 Canceled);
    [apply reachable_sys_two | reflexivity | reflexivity].
Defined.

(** ** [Clear] and the calls that follow it *)

(** X17.  What [Clear] is for: on a held lock, with a context at any depth
    that is not cancelled, it returns a context at depth 0 and leaves the
    lock alone; a [Lock] with that context waits, as that of a goroutine
    which never took the lock; an [Unlock] with it, by a goroutine that
    did not call [Lock], releases the lock of the holder and signals. *)
Theorem Clear_context ctx now now' draws c ws :
  mu c = false -> id c <> 0 -> held c = true -> cond c = Some ws ->
  ctx_Err ctx now = None ->
  exists ctx0,
    Clear ctx now c = Ok (Some ctx0, None) c /\
    depth_of (id c) ctx0 = 0 /\
    Lock ctx0 now' draws c = Ok (AtWait 0) (with_mu true c) /\
    (ctx_Err ctx now' = None ->
     exists ctx1,
       Unlock ctx0 now' c =
         Ok (Some ctx1, None) (with_cond (Some (tail ws)) (with_held false c)) /\
       depth_of (id c) ctx1 = 0).
Proof.
  destruct c as [w h m i]; simpl. intros -> Hi -> -> He.
  exists (WithValue ctx (LockKey i) (IntVal 0)).
  split; [|split; [|split]].
  - unfold_lock; cbn. by rewrite He.
  - apply depth_of_WithValue.
  - unfold_lock; cbn. destruct (Z.eqb_spec i 0); [done|]. cbn.
    by rewrite depth_of_WithValue.
  - intros He'.
    exists (WithValue (WithValue ctx (LockKey i) (IntVal 0)) (LockKey i) (IntVal 0)).
    split; [|apply depth_of_WithValue].
    unfold_lock; cbn. destruct (Z.eqb_spec i 0); [done|]. cbn.
    rewrite depth_of_WithValue. cbn.
    rewrite ctx_Err_WithValue, He'. reflexivity.
Qed.

Lemma Clear_context_witness :
  exists ctx0,
    Clear (at_depth 3) 0 busy = Ok (Some ctx0, None) busy /\
    depth_of (id busy) ctx0 = 0 /\
    Lock ctx0 1 [] busy = Ok (AtWait 0) (with_mu true busy) /\
    (ctx_Err (at_depth 3) 1 = None ->
     exists ctx1,
       Unlock ctx0 1 busy =
         Ok (Some ctx1, None)
            (with_cond (Some (tail [1; 2]%nat)) (with_held false busy)) /\
       depth_of (id busy) ctx1 = 0).
Proof.
  apply (Clear_context (at_depth 3) 0%nat 1%nat [] busy [1; 2]%nat);
    [reflexivity | discriminate | reflexivity | reflexivity | reflexivity].
Defined.

(** ** [permutations] *)

Section permutations_proofs.

Local Open Scope nat_scope.

Example permutations_2 :
  permutations [["a"; "b"]; ["c"]]%byte =
  Some ([["a"; "b"]; ["c"]], [["a"; "b"; "c"]; ["c"; "a"; "b"]])%byte.
Proof. reflexivity. Qed.

Example permutations_0 : permutations [] = Some ([], [[]]).
Proof. reflexivity. Qed.

Lemma swap_Some i j a :
  i < length a -> j < length a -> exists a', swap i j a = Some a'.
Proof.
  intros Hi Hj. unfold swap.
  destruct (lookup_lt_is_Some_2 a i Hi) as [x ->].
  destruct (lookup_lt_is_Some_2 a j Hj) as [y ->]. eauto.
Qed.

Lemma swap_lookup i j a a' k :
  swap i j a = Some a' ->
  a' !! k = a !! (if decide (k = j) then i else if decide (k = i) then j else k).
Proof.
  unfold swap. destruct (a !! i) as [x|] eqn:Hx; [|done].
  destruct (a !! j) as [y|] eqn:Hy; [|done]. intros [= <-].
  apply lookup_lt_Some in Hx as Hi. apply lookup_lt_Some in Hy as Hj.
  destruct (decide (k = j)) as [->|Hkj].
  - rewrite list_lookup_insert_eq; [done|]. by rewrite length_insert.
  - rewrite list_lookup_insert_ne by done.
    destruct (decide (k = i)) as [->|Hki].
    + by rewrite list_lookup_insert_eq.
    + by rewrite list_lookup_insert_ne.
Qed.

Lemma swap_length i j a a' : swap i j a = Some a' -> length a' = length a.
Proof.
  unfold swap. destruct (a !! i), (a !! j); try done. intros [= <-].
  by rewrite !length_insert.
Qed.

Lemma swap_Permutation i j a a' : swap i j a = Some a' -> a' ≡ₚ a.
Proof.
  intros Hs. apply Permutation_inj. split; [by apply (swap_length i j)|].
  exists (fun k => if decide (k = j) then i else if decide (k = i) then j else k).
  split; [|intros k; by apply swap_lookup].
  intros k1 k2. repeat case_decide; congruence.
Qed.

Lemma swap_back i j a a' : swap i j a = Some a' -> swap i j a' = Some a.
Proof.
  intros Hs. pose proof (swap_length _ _ _ _ Hs) as Hlen.
  assert (Hi : i < length a /\ j < length a).
  { unfold swap in Hs. destruct (a !! i) eqn:Hx; [|done].
    destruct (a !! j) eqn:Hy; [|done].
    split; by eapply lookup_lt_Some. }
  destruct (swap_Some i j a') as [a'' Hs']; [lia|lia|].
  rewrite Hs'. f_equal. apply list_eq. intros k.
  rewrite (swap_lookup _ _ _ _ k Hs').
  repeat case_decide; subst; rewrite (swap_lookup _ _ _ _ _ Hs);
    repeat case_decide; congruence.
Qed.

Lemma swap_take i j a a' n :
  swap i j a = Some a' -> n <= i -> n <= j -> take n a' = take n a.
Proof.
  unfold swap. destruct (a !! i), (a !! j); try done. intros [= <-] Hi Hj.
  by rewrite !take_insert_ge.
Qed.

Lemma arranged_all a x i :
  length a <= i -> arranged i a x <-> x = concat a.
Proof.
  intros Hi. split.
  - intros (p & Hp & Ht & ->).
    rewrite !take_ge in Ht; [by subst|lia|].
    apply Permutation_length in Hp. lia.
  - intros ->. exists a. done.
Qed.

Lemma arranged_step i a x :
  i < length a ->
  arranged i a x <->
  exists j a', i <= j < length a /\ swap i j a = Some a' /\ arranged (S i) a' x.
Proof.
  intros Hi. split.
  - intros (p & Hp & Ht & ->).
    assert (Hlen : length p = length a) by (by apply Permutation_length).
    destruct (lookup_lt_is_Some_2 p i) as [y Hy]; [lia|].
    assert (Hdrop : drop i p ≡ₚ drop i a).
    { rewrite <-(take_drop i p), <-(take_drop i a) in Hp.
      rewrite Ht in Hp. by apply Permutation_app_inv_l in Hp. }
    assert (Hin : y ∈ drop i a).
    { rewrite <-Hdrop. apply list_elem_of_lookup. exists 0.
      rewrite lookup_drop. by rewrite Nat.add_0_r. }
    apply list_elem_of_lookup in Hin as [k Hk]. rewrite lookup_drop in Hk.
    apply lookup_lt_Some in Hk as Hlt.
    destruct (swap_Some i (i + k) a) as [a' Hs]; [lia|lia|].
    exists (i + k), a'. split; [lia|]. split; [done|].
    exists p. split; [by rewrite (swap_Permutation _ _ _ _ Hs)|]. split; [|done].
    assert (Hi' : a' !! i = Some y).
    { rewrite (swap_lookup _ _ _ _ i Hs).
      repeat case_decide; congruence. }
    rewrite (take_S_r _ _ _ Hy), (take_S_r _ _ _ Hi'), Ht.
    f_equal. symmetry. apply (swap_take i (i + k)); [done|lia|lia].
  - intros (j & a' & Hj & Hs & p & Hp & Ht & ->).
    exists p. split; [by rewrite Hp, (swap_Permutation _ _ _ _ Hs)|].
    split; [|done].
    rewrite <-(swap_take i j a a' i Hs) by lia.
    apply (f_equal (take i)) in Ht. rewrite !take_take in Ht.
    by rewrite Nat.min_l in Ht by lia.
Qed.

Lemma perm_S fuel i a out :
  perm (S fuel) i (a, out) =
  if (length a <? i)%nat then Some (a, out ++ [concat a])
  else
    st1 ← perm fuel (S i) (a, out);
    perm_for (S fuel)
      (fun j st =>
         a1 ← swap i j st.1;
         st2 ← perm fuel (S i) (a1, st.2);
         a2 ← swap i j st2.1;
         Some (a2, st2.2))
      (S i) st1.
Proof. reflexivity. Qed.

Lemma perm_spec fuel : forall i a out,
  i <= length a + 1 -> length a + 2 - i <= fuel ->
  exists res,
    perm fuel i (a, out) = Some (a, out ++ res) /\
    length res = fact (length a - i) /\
    forall x, x ∈ res <-> arranged i a x.
Proof.
  induction fuel as [|fuel IH]; intros i a out Hi Hfuel; [lia|].
  rewrite perm_S. destruct (Nat.ltb_spec (length a) i) as [Hlt|Hge].
  { exists [concat a]. split; [done|].
    replace (length a - i) with 0 by lia. split; [done|].
    intros x. rewrite arranged_all by lia. by rewrite list_elem_of_singleton. }
  destruct (IH (S i) a out) as (res0 & -> & Hlen0 & Hres0); [lia|lia|].
  cbn [mbind option_bind].
  match goal with |- context [perm_for _ ?b _ _] => set (body := b) end.
  assert (Hloop : forall n j out',
            i < j -> length a - j <= n ->
            exists resL,
              perm_for (S n) body j (a, out') = Some (a, out' ++ resL) /\
              length resL = (length a - j) * fact (length a - S i) /\
              forall x, x ∈ resL <->
                exists j' a', j <= j' < length a /\ swap i j' a = Some a' /\
                              arranged (S i) a' x).
  { induction n as [|n IHn]; intros j out' Hij Hn.
    - exists []. simpl. destruct (Nat.ltb_spec j (length a)); [lia|].
      rewrite app_nil_r. split; [done|].
      replace (length a - j) with 0 by lia. split; [done|].
      intros x. split; [by intros ?%elem_of_nil|].
      intros (j' & _ & ? & _). lia.
    - cbn [perm_for]. cbn [fst].
      destruct (Nat.ltb_spec j (length a)) as [Hj|Hj].
      + destruct (swap_Some i j a) as [a1 Hs]; [lia|lia|].
        pose proof (swap_length _ _ _ _ Hs) as Hl1.
        destruct (IH (S i) a1 out') as (resj & Hp & Hlenj & Hresj);
          [lia|lia|].
        assert (Hbody : body j (a, out') = Some (a, out' ++ resj)).
        { unfold body. cbn [fst snd]. rewrite Hs. cbn.
          rewrite Hp. cbn. rewrite (swap_back _ _ _ _ Hs). done. }
        rewrite Hbody. cbn.
        destruct (IHn (S j) (out' ++ resj)) as (resL & HL & HlenL & HresL);
          [lia|lia|].
        exists (resj ++ resL). rewrite app_assoc. split; [exact HL|].
        split.
        * rewrite length_app, Hlenj, HlenL, Hl1.
          replace (length a - j) with (S (length a - S j)) by lia. lia.
        * intros x. rewrite elem_of_app, Hresj, HresL. split.
          -- intros [Hx | (j' & a' & Hj' & Hs' & Hx)].
             ++ exists j, a1. split; [lia|done].
             ++ exists j', a'. split; [lia|done].
          -- intros (j' & a' & Hj' & Hs' & Hx).
             destruct (decide (j' = j)) as [->|Hne].
             ++ left. congruence.
             ++ right. exists j', a'. split; [lia|done].
      + exists []. rewrite app_nil_r. split; [done|].
        replace (length a - j) with 0 by lia. split; [done|].
        intros x. split; [by intros ?%elem_of_nil|].
        intros (j' & _ & ? & _). lia. }
  destruct (Hloop fuel (S i) (out ++ res0)) as (resL & HL & HlenL & HresL);
    [lia|lia|].
  exists (res0 ++ resL). split; [|split].
  - by rewrite HL, app_assoc.
  - rewrite length_app, Hlen0, HlenL.
    destruct (decide (i = length a)) as [->|Hne].
    + replace (length a - S (length a)) with 0 by lia.
      replace (length a - length a) with 0 by lia. done.
    + replace (length a - i) with (S (length a - S i)) by lia.
      simpl. lia.
  - intros x. rewrite elem_of_app, Hres0, HresL.
    destruct (decide (i = length a)) as [->|Hne].
    + rewrite !arranged_all by lia. split; [|by left].
      intros [?|(j' & _ & ? & _)]; [done|lia].
    + rewrite (arranged_step i a x) by lia. split.
      * intros [Hx | (j' & a' & Hj' & Hs' & Hx)].
        -- exists i, a. split; [lia|]. split; [|done].
           destruct (swap_Some i i a) as [a' Hs]; [lia|lia|].
           rewrite Hs. f_equal. apply list_eq. intros k.
           rewrite (swap_lookup _ _ _ _ k Hs). repeat case_decide; congruence.
        -- exists j', a'. split; [lia|done].
      * intros (j' & a' & Hj' & Hs' & Hx).
        destruct (decide (j' = i)) as [->|Hne'].
        -- left. assert (a' = a) as ->; [|done].
           apply list_eq. intros k.
           rewrite (swap_lookup _ _ _ _ k Hs'). repeat case_decide; congruence.
        -- right. exists j', a'. split; [lia|done].
Qed.

(** X10.  [permutations] returns, without an index out of range, for every
    [lists]: its result has [len(lists)!] entries, and [lists], which the
    closure permutes in place, ends in the order it came in. *)
Theorem permutations_count lists :
  exists out,
    permutations lists = Some (lists, out) /\
    length out = fact (length lists).
Proof.
  destruct (perm_spec (length lists + 2) 0 lists []) as (res & Hp & Hlen & _);
    [lia..|].
  exists res. split; [exact Hp|]. by rewrite Hlen, Nat.sub_0_r.
Qed.

(** X11.  The entries of the result of [permutations] are the
    concatenations of the arrangements of [lists]: each entry is one, and
    each arrangement has its entry. *)
Theorem permutations_arrangements lists :
  exists out,
    permutations lists = Some (lists, out) /\
    forall x, x ∈ out <-> exists p, p ≡ₚ lists /\ x = concat p.
Proof.
  destruct (perm_spec (length lists + 2) 0 lists []) as (res & Hp & _ & Hres);
    [lia..|].
  exists res. split; [exact Hp|]. intros x. rewrite Hres. unfold arranged.
  split.
  - intros (p & Hperm & _ & ->). eauto.
  - intros (p & Hperm & ->). exists p. by rewrite !take_0.
Qed.

End permutations_proofs.

(** ** The methods of [testThing] *)

Lemma Lock_deeper ctx now draws c :
  mu c = false -> id c <> 0 -> depth_of (id c) ctx <> 0 ->
  ctx_Err ctx now = None ->
  Lock ctx now draws c =
  Ok (Returned (Some (WithValue ctx (LockKey (id c))
                        (IntVal (int_wrap (depth_of (id c) ctx + 1)))), None)) c.
Proof.
  destruct c as [w h m i]; simpl. intros -> Hi Hd He.
  unfold_lock; cbn. destruct (Z.eqb_spec i 0); [done|]. cbn.
  destruct (Z.eqb_spec (depth_of i ctx) 0); [done|]. by rewrite He.
Qed.

Lemma Unlock_deeper ctx now c :
  mu c = false -> id c <> 0 -> 1 < depth_of (id c) ctx ->
  ctx_Err ctx now = None ->
  Unlock ctx now c =
  Ok (Some (WithValue ctx (LockKey (id c))
              (IntVal (depth_of (id c) ctx - 1))), None) c.
Proof.
  destruct c as [w h m i]; simpl. intros -> Hi Hd He.
  unfold_lock; cbn. destruct (Z.eqb_spec i 0); [done|]. cbn.
  destruct (Z.eqb_spec (depth_of i ctx) 0); [lia|].
  destruct (Z.eqb_spec (depth_of i ctx) 1); [lia|]. cbn.
  destruct (Z.ltb_spec 0 (depth_of i ctx)); [|lia]. by rewrite He.
Qed.

Lemma shiftNext_nil instant draws fuel ctx tt n :
  Fixture.shiftNext instant draws (S fuel) ctx [] tt n = Fixture.Done None tt n.
Proof. reflexivity. Qed.

Lemma shiftNext_cons instant draws fuel ctx v rest tt n :
  Fixture.shiftNext instant draws (S (S fuel)) ctx (v :: rest) tt n =
  Fixture.shift instant draws (Fixture.shiftNext instant draws fuel)
    ctx (v :: rest) tt n.
Proof.
  cbn [Fixture.shiftNext].
  destruct (Byte.to_nat v mod 2 =? 1)%nat; reflexivity.
Qed.


(** A nested run: [ctx] comes at a depth of 1 or more, and the first [k]
    calls of [Lock] see it uncancelled. *)
Lemma shiftNext_nested instant draws e vs : forall k fuel ctx tt n,
  mu (Fixture.lk tt) = false -> id (Fixture.lk tt) <> 0 ->
  cond (Fixture.lk tt) <> None ->
  1 <= depth_of (id (Fixture.lk tt)) ctx ->
  depth_of (id (Fixture.lk tt)) ctx + Z.of_nat (length vs) <= max_int ->
  (k <= length vs)%nat ->
  (forall j, (j < k)%nat -> ctx_Err ctx (instant (n + j)%nat) = None) ->
  ((k < length vs)%nat -> ctx_Err ctx (instant (n + k)%nat) = Some e) ->
  (2 * length vs + 1 <= fuel)%nat ->
  exists tt',
    Fixture.shiftNext instant draws fuel ctx vs tt n =
      Fixture.Done (if (k <? length vs)%nat then Some e else None) tt'
        (n + 2 * k + (if (k <? length vs)%nat then 1 else 0)) /\
    Fixture.values tt' = Fixture.values tt ++ take k vs /\
    held (Fixture.lk tt') = held (Fixture.lk tt) /\
    id (Fixture.lk tt') = id (Fixture.lk tt) /\
    mu (Fixture.lk tt') = false /\ cond (Fixture.lk tt') <> None.
Proof.
  induction vs as [|v rest IH];
    intros k fuel ctx tt n Hm Hi Hc Hd Hmax Hk Hlt He Hfuel.
  - destruct fuel; [simpl in *; lia|]. rewrite shiftNext_nil.
    simpl in Hk. assert (k = 0%nat) as -> by lia. simpl.
    exists tt. rewrite app_nil_r. repeat split; try done. f_equal. lia.
  - destruct fuel as [|[|fuel]]; [simpl in *; lia..|].
    rewrite shiftNext_cons. unfold Fixture.shift, Fixture.tt_Lock.
    simpl in Hmax, Hfuel, Hk, He.
    destruct k as [|k].
    + specialize (He ltac:(lia)). rewrite Nat.add_0_r in He.
      destruct (Lock_total ctx (instant n) draws (Fixture.lk tt))
        as (p & c' & HL); [done|by intros _|by left|].
      rewrite HL.
      apply Lock_cases in HL as (_ & _ & Hid & Hwf & Hp).
      specialize (Hid Hi). rewrite Hid in Hp.
      destruct p as [r|d']; [|destruct Hp as (_ & ? & _); lia].
      destruct Hp as (Hm' & -> & Hh). rewrite He.
      exists {| Fixture.values := Fixture.values tt; Fixture.lk := c' |}.
      cbn [Fixture.values Fixture.lk]. rewrite app_nil_r.
      destruct (Z.eqb_spec (depth_of (id (Fixture.lk tt)) ctx) 0); [lia|].
      split; [|split; [|split; [|split; [|split]]]]; try done.
      * cbn. f_equal. lia.
      * apply Hwf. by intros _.
    + assert (He0 : ctx_Err ctx (instant n) = None).
      { rewrite <-(Nat.add_0_r n). apply Hlt. lia. }
      rewrite Lock_deeper by (done || lia). cbn beta iota. cbn [Fixture.values Fixture.lk].
      set (d := depth_of (id (Fixture.lk tt)) ctx) in *.
      assert (Hw : int_wrap (d + 1) = d + 1).
      { apply int_wrap_small. unfold max_int in *. lia. }
      rewrite Hw.
      set (ctx' := WithValue ctx (LockKey (id (Fixture.lk tt))) (IntVal (d + 1))).
      assert (Hd' : depth_of (id (Fixture.lk tt)) ctx' = d + 1)
        by apply depth_of_WithValue.
      set (tt2 := {| Fixture.values := Fixture.values tt ++ [v];
                     Fixture.lk := Fixture.lk tt |}).
      destruct (IH k fuel ctx' tt2 (S n)) as (tt3 & Hrun & Hv & Hh & Hid & Hm3 & Hc3);
        try (cbn [Fixture.lk Fixture.values tt2]; rewrite ?Hd';
             first [done | lia]).
      { intros j Hj. unfold ctx'. rewrite ctx_Err_WithValue.
        replace (S n + j)%nat with (n + S j)%nat by lia. apply Hlt. lia. }
      { intros Hj. unfold ctx'. rewrite ctx_Err_WithValue.
        replace (S n + k)%nat with (n + S k)%nat by lia. apply He. lia. }
      rewrite Hrun. unfold Fixture.tt_Unlock.
      match goal with |- context [Unlock ctx' ?t (Fixture.lk tt3)] =>
        destruct (Unlock_total ctx' t (Fixture.lk tt3)) as (r & c4 & HU);
          [done|by intros _|]
      end.
      rewrite HU.
      apply Unlock_cases in HU as (_ & Hm4 & Hid4 & Hc4 & Hcase).
      cbn in Hid. rewrite Hid, Hd' in Hcase.
      destruct (Z.eqb_spec (id (Fixture.lk tt)) 0); [done|].
      destruct (Z.eqb_spec (d + 1) 0); [lia|].
      destruct (Z.eqb_spec (d + 1) 1); [lia|].
      cbn in Hcase. destruct Hcase as (Hh4 & _ & _).
      change (S k <? length (v :: rest))%nat with (k <? length rest)%nat.
      exists {| Fixture.values := Fixture.values tt3; Fixture.lk := c4 |}.
      cbn [Fixture.values Fixture.lk].
      split; [|split; [|split; [|split; [|split]]]].
      * destruct (k <? length rest)%nat; f_equal; lia.
      * rewrite Hv. cbn. by rewrite <-app_assoc.
      * by rewrite Hh4, Hh.
      * by rewrite Hid4, Hid.
      * done.
      * by apply Hc4.
Qed.

(** A run from outside the lock: [ctx] carries no depth, the lock is not
    held. *)
Lemma shiftNext_run instant draws e vs k fuel ctx tt n :
  mu (Fixture.lk tt) = false -> wf (Fixture.lk tt) ->
  held (Fixture.lk tt) = false ->
  id (Fixture.lk tt) <> 0 \/ Exists (fun d => uint64 d <> 0) draws ->
  (forall i, depth_of i ctx = 0) ->
  Z.of_nat (length vs) <= max_int ->
  (k <= length vs)%nat ->
  (forall j, (j < k)%nat -> ctx_Err ctx (instant (n + j)%nat) = None) ->
  ((k < length vs)%nat -> ctx_Err ctx (instant (n + k)%nat) = Some e) ->
  (2 * length vs + 1 <= fuel)%nat ->
  exists tt',
    Fixture.shiftNext instant draws fuel ctx vs tt n =
      Fixture.Done (if (k <? length vs)%nat then Some e else None) tt'
        (n + 2 * k + (if (k <? length vs)%nat then 1 else 0)) /\
    Fixture.values tt' = Fixture.values tt ++ take k vs /\
    held (Fixture.lk tt') = (k =? 0)%nat && negb (length vs =? 0)%nat /\
    mu (Fixture.lk tt') = false /\
    (vs <> [] -> id (Fixture.lk tt') <> 0 /\ cond (Fixture.lk tt') <> None).
Proof.
  intros Hm Hwf Hh Hdr Hd Hmax Hk Hlt He Hfuel.
  destruct vs as [|v rest].
  - destruct fuel; [simpl in *; lia|]. rewrite shiftNext_nil.
    simpl in Hk. assert (k = 0%nat) as -> by lia. simpl.
    exists tt. rewrite app_nil_r. repeat split; try done. f_equal. lia.
  - destruct fuel as [|[|fuel]]; [simpl in *; lia..|].
    rewrite shiftNext_cons. unfold Fixture.shift, Fixture.tt_Lock.
    simpl in Hmax, Hfuel, Hk, He.
    destruct (Lock_total ctx (instant n) draws (Fixture.lk tt))
      as (p & c' & HL); [done..|].
    rewrite HL.
    apply Lock_cases in HL as (_ & Hi & _ & Hwf' & Hp).
    specialize (Hwf' Hwf). rewrite Hd in Hp.
    destruct p as [r|d']; [|destruct Hp as (_ & _ & ? & _); congruence].
    cbn in Hp. destruct Hp as (Hm' & -> & _ & Hh').
    destruct k as [|k].
    + specialize (He ltac:(lia)). rewrite Nat.add_0_r in He.
      rewrite He.
      exists {| Fixture.values := Fixture.values tt; Fixture.lk := c' |}.
      cbn [Fixture.values Fixture.lk]. rewrite app_nil_r.
      split; [|split; [|split; [|split]]]; try done.
      cbn. f_equal. lia.
    + assert (He0 : ctx_Err ctx (instant n) = None).
      { rewrite <-(Nat.add_0_r n). apply Hlt. lia. }
      rewrite He0. cbn beta iota. cbn [Fixture.values Fixture.lk].
      change (int_wrap (0 + 1)) with 1.
      set (ctx' := WithValue ctx (LockKey (id c')) (IntVal 1)).
      assert (Hd' : depth_of (id c') ctx' = 1) by apply depth_of_WithValue.
      set (tt2 := {| Fixture.values := Fixture.values tt ++ [v];
                     Fixture.lk := c' |}).
      destruct (shiftNext_nested instant draws e rest k fuel ctx' tt2 (S n))
        as (tt3 & Hrun & Hv & Hh3 & Hid & Hm3 & Hc3);
        try (cbn [Fixture.lk Fixture.values tt2]; rewrite ?Hd';
             unfold max_int in *; first [done | lia]).
      { intros j Hj. unfold ctx'. rewrite ctx_Err_WithValue.
        replace (S n + j)%nat with (n + S j)%nat by lia. apply Hlt. lia. }
      { intros Hj. unfold ctx'. rewrite ctx_Err_WithValue.
        replace (S n + k)%nat with (n + S k)%nat by lia. apply He. lia. }
      rewrite Hrun. unfold Fixture.tt_Unlock.
      match goal with |- context [Unlock ctx' ?t (Fixture.lk tt3)] =>
        destruct (Unlock_total ctx' t (Fixture.lk tt3)) as (r & c4 & HU);
          [done|by intros _|]
      end.
      rewrite HU.
      apply Unlock_cases in HU as (_ & Hm4 & Hid4 & Hc4 & Hcase).
      cbn in Hid. rewrite Hid, Hd' in Hcase.
      destruct (Z.eqb_spec (id c') 0); [done|].
      cbn in Hcase. destruct Hcase as (Hh4 & _ & _).
      change (S k <? length (v :: rest))%nat with (k <? length rest)%nat.
      exists {| Fixture.values := Fixture.values tt3; Fixture.lk := c4 |}.
      cbn [Fixture.values Fixture.lk].
      split; [|split; [|split; [|split]]].
      * destruct (k <? length rest)%nat; f_equal; lia.
      * rewrite Hv. cbn. by rewrite <-app_assoc.
      * done.
      * done.
      * intros _. split; [by rewrite Hid4, Hid|by apply Hc4].
Qed.


Lemma Lock_at_wait ctx now draws c :
  mu c = false -> id c <> 0 -> held c = true -> depth_of (id c) ctx = 0 ->
  Lock ctx now draws c = Ok (AtWait 0) (with_mu true c).
Proof.
  destruct c as [w h m i]; simpl. intros -> Hi -> Hd.
  unfold_lock; cbn. destruct (Z.eqb_spec i 0); [done|]. cbn.
  by rewrite Hd.
Qed.

Example shiftNext_ABC :
  Fixture.shiftNext (fun n => n) [7] 7 Background ["A"; "B"; "C"]%byte
    {| Fixture.values := []; Fixture.lk := zero |} 0 =
  Fixture.Done None
    {| Fixture.values := ["A"; "B"; "C"]%byte;
       Fixture.lk := {| cond := Some []; held := false; mu := false; id := 7 |} |}
    6.
Proof. reflexivity. Qed.

Example shiftNext_ABC_cancelled :
  Fixture.shiftNext (fun n => n) [7] 7 until_2 ["A"; "B"; "C"]%byte
    {| Fixture.values := []; Fixture.lk := zero |} 0 =
  Fixture.Done (Some Canceled)
    {| Fixture.values := ["A"; "B"]%byte;
       Fixture.lk := {| cond := Some []; held := false; mu := false; id := 7 |} |}
    5.
Proof. reflexivity. Qed.

(** With a context that is cancelled from the start the lock stays held. *)
Example shiftNext_leaves_held :
  Fixture.shiftNext (fun n => n) [7] 7 cancelled ["A"; "B"; "C"]%byte
    {| Fixture.values := []; Fixture.lk := zero |} 0 =
  Fixture.Done (Some Canceled)
    {| Fixture.values := [];
       Fixture.lk := {| cond := Some []; held := true; mu := false; id := 7 |} |}
    1.
Proof. reflexivity. Qed.

(** X12.  [shiftNext] called from outside the lock (a context without a
    depth, the lock not held), every one of its calls of [Lock] seeing the
    context uncancelled: given enough fuel it returns nil after two calls
    for each value, the values appended in order to [tt.values], and the
    lock released.  What the deferred calls of [Unlock] see of the
    cancellation makes no difference. *)
Theorem shiftNext_appends_and_releases instant draws fuel ctx vs tt n :
  mu (Fixture.lk tt) = false -> wf (Fixture.lk tt) ->
  held (Fixture.lk tt) = false ->
  id (Fixture.lk tt) <> 0 \/ Exists (fun d => uint64 d <> 0) draws ->
  (forall i, depth_of i ctx = 0) ->
  Z.of_nat (length vs) <= max_int ->
  (forall j, (j < length vs)%nat -> ctx_Err ctx (instant (n + j)%nat) = None) ->
  (2 * length vs + 1 <= fuel)%nat ->
  exists tt',
    Fixture.shiftNext instant draws fuel ctx vs tt n =
      Fixture.Done None tt' (n + 2 * length vs) /\
    Fixture.values tt' = Fixture.values tt ++ vs /\
    held (Fixture.lk tt') = false /\ mu (Fixture.lk tt') = false.
Proof.
  intros Hm Hwf Hh Hdr Hd Hmax He Hfuel.
  destruct (shiftNext_run instant draws Canceled vs (length vs) fuel ctx tt n)
    as (tt' & Hrun & Hv & Hh' & Hm' & _); try done; [lia|].
  rewrite Nat.ltb_irrefl, Nat.add_0_r in Hrun. rewrite firstn_all in Hv.
  exists tt'. repeat split; try done.
  rewrite Hh'. by destruct (length vs).
Qed.

Lemma shiftNext_appends_and_releases_witness :
  exists tt',
    Fixture.shiftNext (fun n => n) [0; 7] 7 Background ["A"; "B"; "C"]%byte
      {| Fixture.values := []; Fixture.lk := zero |} 0 =
      Fixture.Done None tt' (0 + 2 * 3) /\
    Fixture.values tt' = [] ++ ["A"; "B"; "C"]%byte /\
    held (Fixture.lk tt') = false /\ mu (Fixture.lk tt') = false.
Proof.
  apply (shiftNext_appends_and_releases (fun n => n) [0; 7] 7 Background
           ["A"; "B"; "C"]%byte {| Fixture.values := []; Fixture.lk := zero |} 0).
  - reflexivity.
  - intros H. by destruct H.
  - reflexivity.
  - right. apply Exists_cons_tl, Exists_cons_hd. discriminate.
  - reflexivity.
  - discriminate.
  - reflexivity.
  - simpl. lia.
Defined.

(** X13.  [shiftNext] called from outside the lock with a context whose
    cancellation the call of [Lock] for the value of index [k] is the
    first to see: it returns the error of the context after [2 * k + 1]
    calls, with the values before index [k] appended.  The lock is
    released if [k] is not 0; if the very first [Lock] sees the
    cancellation, [shiftNext] returns with the lock held, and no [Unlock]
    is deferred. *)
Theorem shiftNext_cancelled instant draws fuel ctx vs tt n k e :
  mu (Fixture.lk tt) = false -> wf (Fixture.lk tt) ->
  held (Fixture.lk tt) = false ->
  id (Fixture.lk tt) <> 0 \/ Exists (fun d => uint64 d <> 0) draws ->
  (forall i, depth_of i ctx = 0) ->
  Z.of_nat (length vs) <= max_int ->
  (k < length vs)%nat ->
  (forall j, (j < k)%nat -> ctx_Err ctx (instant (n + j)%nat) = None) ->
  ctx_Err ctx (instant (n + k)%nat) = Some e ->
  (2 * length vs + 1 <= fuel)%nat ->
  exists tt',
    Fixture.shiftNext instant draws fuel ctx vs tt n =
      Fixture.Done (Some e) tt' (n + 2 * k + 1) /\
    Fixture.values tt' = Fixture.values tt ++ take k vs /\
    held (Fixture.lk tt') = (k =? 0)%nat /\ mu (Fixture.lk tt') = false.
Proof.
  intros Hm Hwf Hh Hdr Hd Hmax Hk Hlt He Hfuel.
  destruct (shiftNext_run instant draws e vs k fuel ctx tt n)
    as (tt' & Hrun & Hv & Hh' & Hm' & _); try done; [lia|].
  destruct (Nat.ltb_spec k (length vs)); [|lia].
  exists tt'. repeat split; try done.
  rewrite Hh'. destruct (length vs); [lia|]. simpl. by rewrite andb_true_r.
Qed.

Lemma shiftNext_cancelled_witness :
  exists tt',
    Fixture.shiftNext (fun n => n) [7] 7 until_2 ["A"; "B"; "C"]%byte
      {| Fixture.values := []; Fixture.lk := zero |} 0 =
      Fixture.Done (Some Canceled) tt' (0 + 2 * 2 + 1) /\
    Fixture.values tt' = [] ++ take 2 ["A"; "B"; "C"]%byte /\
    held (Fixture.lk tt') = (2 =? 0)%nat /\ mu (Fixture.lk tt') = false.
Proof.
  apply (shiftNext_cancelled (fun n => n) [7] 7 until_2
           ["A"; "B"; "C"]%byte {| Fixture.values := []; Fixture.lk := zero |}
           0 2 Canceled).
  - reflexivity.
  - intros H. by destruct H.
  - reflexivity.
  - right. apply Exists_cons_hd. discriminate.
  - reflexivity.
  - discriminate.
  - simpl. lia.
  - intros [|[|j]] Hj; [reflexivity | reflexivity | lia].
  - reflexivity.
  - simpl. lia.
Defined.

(** X14.  [shiftNext] called inside a critical section, with a context
    that carries a depth of 1 or more: it never waits, although the lock
    is held.  With enough fuel it returns, with the error of the context
    as soon as a [Lock] sees it cancelled, the values before that appended,
    and the lock held or not as it was, under the same identifier. *)
Theorem shiftNext_nested_keeps_lock instant draws fuel ctx vs tt n k e :
  mu (Fixture.lk tt) = false -> id (Fixture.lk tt) <> 0 ->
  cond (Fixture.lk tt) <> None ->
  1 <= depth_of (id (Fixture.lk tt)) ctx ->
  depth_of (id (Fixture.lk tt)) ctx + Z.of_nat (length vs) <= max_int ->
  (k <= length vs)%nat ->
  (forall j, (j < k)%nat -> ctx_Err ctx (instant (n + j)%nat) = None) ->
  ((k < length vs)%nat -> ctx_Err ctx (instant (n + k)%nat) = Some e) ->
  (2 * length vs + 1 <= fuel)%nat ->
  exists tt',
    Fixture.shiftNext instant draws fuel ctx vs tt n =
      Fixture.Done (if (k <? length vs)%nat then Some e else None) tt'
        (n + 2 * k + (if (k <? length vs)%nat then 1 else 0)) /\
    Fixture.values tt' = Fixture.values tt ++ take k vs /\
    held (Fixture.lk tt') = held (Fixture.lk tt) /\
    id (Fixture.lk tt') = id (Fixture.lk tt).
Proof.
  intros Hm Hi Hc Hd Hmax Hk Hlt He Hfuel.
  destruct (shiftNext_nested instant draws e vs k fuel ctx tt n)
    as (tt' & Hrun & Hv & Hh' & Hid & _); try done.
  by exists tt'.
Qed.

Lemma shiftNext_nested_keeps_lock_witness :
  let tt := {| Fixture.values := ["Z"]%byte; Fixture.lk := busy |} in
  exists tt',
    Fixture.shiftNext (fun n => n) [] 5 (at_depth 3) ["A"; "B"]%byte tt 0 =
      Fixture.Done (if (2 <? 2)%nat then Some Canceled else None) tt'
        (0 + 2 * 2 + (if (2 <? 2)%nat then 1 else 0)) /\
    Fixture.values tt' = ["Z"]%byte ++ take 2 ["A"; "B"]%byte /\
    held (Fixture.lk tt') = held busy /\
    id (Fixture.lk tt') = id busy.
Proof.
  apply (shiftNext_nested_keeps_lock (fun n => n) [] 5 (at_depth 3)
           ["A"; "B"]%byte {| Fixture.values := ["Z"]%byte; Fixture.lk := busy |}
           0 2 Canceled).
  - reflexivity.
  - discriminate.
  - discriminate.
  - discriminate.
  - discriminate.
  - simpl. lia.
  - reflexivity.
  - simpl. lia.
  - simpl. lia.
Defined.

(** X15.  [shiftNext] called on a held lock with a context that carries
    no depth for it, such as the context the caller had before its own
    [Lock]: the first [Lock] waits, so a goroutine that holds the lock
    itself waits for its own [Unlock]. *)
Theorem shiftNext_blocks_without_depth instant draws fuel ctx vs tt n :
  mu (Fixture.lk tt) = false -> id (Fixture.lk tt) <> 0 ->
  held (Fixture.lk tt) = true ->
  depth_of (id (Fixture.lk tt)) ctx = 0 ->
  vs <> [] -> (2 <= fuel)%nat ->
  Fixture.shiftNext instant draws fuel ctx vs tt n = Fixture.Blocked.
Proof.
  intros Hm Hi Hh Hd Hvs Hfuel.
  destruct vs as [|v rest]; [done|].
  destruct fuel as [|[|fuel]]; [lia..|].
  rewrite shiftNext_cons. unfold Fixture.shift, Fixture.tt_Lock.
  by rewrite Lock_at_wait.
Qed.

Lemma shiftNext_blocks_without_depth_witness :
  Fixture.shiftNext (fun n => n) [] 5 Background ["A"; "B"]%byte
    {| Fixture.values := []; Fixture.lk := busy |} 0 = Fixture.Blocked.
Proof.
  apply shiftNext_blocks_without_depth;
    [reflexivity | discriminate | reflexivity | reflexivity | discriminate | lia].
Defined.

(** X16.  Whatever the lock and the context, and whatever the fuel: when
    [shiftNext] returns, [tt.values] is what it was followed by the first
    [k] of the values, in their order, for some [k]; and if the error
    returned is nil, by all of them. *)
Theorem shiftNext_appends_prefix instant draws fuel : forall ctx vs tt n err tt' n',
  Fixture.shiftNext instant draws fuel ctx vs tt n = Fixture.Done err tt' n' ->
  exists k,
    (k <= length vs)%nat /\
    Fixture.values tt' = Fixture.values tt ++ take k vs /\
    (err = None -> k = length vs).
Proof.
  induction fuel as [fuel IH] using lt_wf_ind.
  intros ctx vs tt n err tt' n' H.
  destruct fuel as [|fuel]; [done|].
  destruct vs as [|v rest].
  { rewrite shiftNext_nil in H. simplify_eq. exists 0%nat. cbn.
    rewrite app_nil_r. done. }
  destruct fuel as [|fuel]; [cbn in H; by destruct (_ =? _)%nat|].
  rewrite shiftNext_cons in H. unfold Fixture.shift, Fixture.tt_Lock in H.
  destruct (Lock _ _ _ _) as [[[[ctx'|] [e|]]|d] c1| | |]; try done.
  - simplify_eq. exists 0%nat. cbn. rewrite app_nil_r.
    split; [lia|]. by split.
  - cbn [Fixture.values Fixture.lk] in H.
    destruct (Fixture.shiftNext _ _ _ _ _ _ _) as [err3 tt3 n3| | |] eqn:Hrun;
      try done.
    apply IH in Hrun as (k & Hk & Hv & Hn); [|lia].
    unfold Fixture.tt_Unlock in H.
    destruct (Unlock _ _ _) as [r c4| | |]; try done.
    simplify_eq. exists (S k). cbn.
    split; [lia|]. split.
    + rewrite Hv. cbn. by rewrite <-app_assoc.
    + intros ->. by rewrite Hn.
  - simplify_eq. exists 0%nat. cbn. rewrite app_nil_r.
    split; [lia|]. by split.
Qed.

Lemma shiftNext_appends_prefix_witness :
  exists k,
    (k <= length ["A"; "B"; "C"]%byte)%nat /\
    ["A"; "B"]%byte = [] ++ take k ["A"; "B"; "C"]%byte /\
    (Some Canceled = None -> k = length ["A"; "B"; "C"]%byte).
Proof.
  apply (shiftNext_appends_prefix (fun n => n) [7] 7 until_2
           ["A"; "B"; "C"]%byte {| Fixture.values := []; Fixture.lk := zero |} 0
           (Some Canceled)
           {| Fixture.values := ["A"; "B"]%byte;
              Fixture.lk := {| cond := Some []; held := false; mu := false;
                               id := 7 |} |} 5%nat).
  reflexivity.
Defined.
